(** * go-yarnlock: tokenizer, parser, document adapter and root detection

    A shallow embedding of [parser.go] (and of its renamed twin, which
    also holds [LockFile], [RootElement] and [ParseLockFileData]) together
    with the properties of the specification that were checked against it.

    Conventions of the embedding:
    - a Go [string] is a byte sequence: [string] of the Standard Library,
      one [ascii] per byte;
    - Go's [int] is [Z] for the counters kept in records and [nat] for
      indices into the input; [strconv.Atoi] saturates at [2^63-1] as the
      64-bit implementation does when it reports a range error;
    - a [panic] is the [Panic] outcome of the [exec] monad, a returned
      [error] is an ordinary value;
    - loops whose trip count is not structural take a fuel argument, and
      the entry points supply enough of it (proved below). *)

From Stdlib Require Import ZArith Ascii String List Lia Bool DecimalString.
From stdpp Require Import base tactics option list gmap strings sorting.

Local Open Scope Z_scope.

(* ================================================================== *)
(** ** Outcomes: return, panic, returned errors *)
(* ================================================================== *)

(** [type ValueType int] with its [iota] constants. *)
Inductive ValueType := TokenValueVoid | TokenValueInt | TokenValueString | TokenValueBool.

(** [type TokenType int], constants [iota + 1]. *)
Inductive TokenType :=
  | TokenBoolean | TokenString | TokenIdentifier | TokenEOF | TokenColon
  | TokenNewLine | TokenComment | TokenIndent | TokenInvalid | TokenNumber
  | TokenComma.

Global Instance ValueType_eq_dec : EqDecision ValueType.
Proof. solve_decision. Defined.
Global Instance TokenType_eq_dec : EqDecision TokenType.
Proof. solve_decision. Defined.

(** [type TokenValue struct]; the field names are those of the twin
    declaration ([vInt], [vString], ...), because [String] is taken. *)
Record TokenValue := mkTokenValue {
  vInt : Z;
  vString : string;
  vBool : bool;
  valid : bool;
  vType : ValueType;
}.

(** [type Token struct]. *)
Record Token := mkToken {
  tk_line : Z;
  tk_col : Z;
  tk_kind : TokenType;
  tk_value : TokenValue;
}.

Global Instance TokenValue_eq_dec : EqDecision TokenValue.
Proof. solve_decision. Defined.
Global Instance Token_eq_dec : EqDecision Token.
Proof. solve_decision. Defined.

(** The zero value [TokenValue{}]. *)
Definition zeroTokenValue : TokenValue :=
  mkTokenValue 0 EmptyString false false TokenValueVoid.

Definition zeroToken : Token := mkToken 0 0 TokenBoolean zeroTokenValue.

(** Run-time errors raised by the Go runtime itself. *)
Inductive runtime_error :=
  | IndexOutOfRange (index len : nat)
  | SliceBoundsOutOfRange (bound len : nat)
  | InterfaceConversion.

(** The text of a Go panic raised with a string.  [fmt.Sprintf] formats
    are kept with their arguments unrendered. *)
Inductive message :=
  | MsgExpectedStringValue
      (* "expected token value to be a string" *)
  | MsgVersionExceeded (version supported : Z)
      (* "Can't install from a lockfile of version %d as you're on an old
         yarn version that only supports versions up to %d. ..." *)
  | MsgNoMoreTokens            (* "No more tokens" *)
  | MsgUnexpectedToken         (* "Unexpected token" *)
  | MsgExpectedKey             (* "Expected a key" *)
  | MsgChopIsZero              (* "chop is zero" *)
  | MsgExpectedString (line col : Z) (fileLoc : string)
      (* "Expected string%d:%d in %s" *)
  | MsgInvalidValueType (line col : Z) (fileLoc : string)
      (* "Invalid value type%d:%d in %s" *)
  | MsgUnknownToken (propToken : Token) (line col : Z) (fileLoc : string)
      (* "Unknown token: %v%d:%d in %s" *)
  | MsgUnknownErr.             (* "Unknown err" *)

(** What [panic] was called with. *)
Inductive panic_value :=
  | PanicInt (n : Z)
  | PanicString (m : message)
  | PanicRuntime (e : runtime_error).

(** Values of Go's [error] interface that this package produces. *)
Inductive error :=
  | ErrorsNew (text : string)          (* errors.New(text) *)
  | RuntimeError (e : runtime_error)   (* runtime.Error, an error *)
  | ParseErr (m : message)             (* _ParseErr(m) *)
  | ErrorsWrapJSON (text : string).    (* errors.Wrap(e, text), e from encoding/json *)

Inductive exec (A : Type) : Type :=
  | Ret (a : A)
  | Panic (v : panic_value)
  | OutOfFuel.
Arguments Ret {A} a.
Arguments Panic {A} v.
Arguments OutOfFuel {A}.

Definition exec_bind {A B} (f : A → exec B) (c : exec A) : exec B :=
  match c with
  | Ret a => f a
  | Panic v => Panic v
  | OutOfFuel => OutOfFuel
  end.

Global Instance exec_mret : MRet exec := @Ret.
Global Instance exec_mbind : MBind exec := @exec_bind.
Global Instance exec_fmap : FMap exec := λ A B f c, exec_bind (λ a, Ret (f a)) c.

(* ================================================================== *)
(** ** Go string primitives *)
(* ================================================================== *)

Definition nl : ascii := "010"%char.
Definition cr : ascii := "013"%char.
Definition dquote : ascii := "034"%char.
Definition backslash : ascii := "092"%char.

Definition ascii_eqb (a b : ascii) : bool := bool_decide (a = b).

(** [s[i]], panicking when [i] is out of range. *)
Definition index_at (s : string) (i : nat) : exec ascii :=
  match String.get i s with
  | Some c => Ret c
  | None => Panic (PanicRuntime (IndexOutOfRange i (String.length s)))
  end.

Fixpoint sdrop (n : nat) (s : string) : string :=
  match n, s with
  | O, _ => s
  | S n, String _ s => sdrop n s
  | S _, EmptyString => EmptyString
  end.

Fixpoint stake (n : nat) (s : string) : string :=
  match n, s with
  | O, _ => EmptyString
  | S n, String c s => String c (stake n s)
  | S _, EmptyString => EmptyString
  end.

(** [s[lo:hi]]: Go checks [lo <= hi <= len(s)]. *)
Definition slice (s : string) (lo hi : nat) : exec string :=
  if (String.length s <? hi)%nat
  then Panic (PanicRuntime (SliceBoundsOutOfRange hi (String.length s)))
  else if (hi <? lo)%nat
  then Panic (PanicRuntime (SliceBoundsOutOfRange lo hi))
  else Ret (stake (hi - lo) (sdrop lo s)).

(** [s[lo:]]. *)
Definition slice_from (s : string) (lo : nat) : exec string :=
  if (String.length s <? lo)%nat
  then Panic (PanicRuntime (SliceBoundsOutOfRange lo (String.length s)))
  else Ret (sdrop lo s).

(** [strings.HasPrefix(s, p)]. *)
Fixpoint HasPrefix (s p : string) {struct p} : bool :=
  match p, s with
  | EmptyString, _ => true
  | String a p, String b s => ascii_eqb a b && HasPrefix s p
  | String _ _, EmptyString => false
  end.

(** [strings.HasSuffix(s, p)]:
    [len(s) >= len(p) && s[len(s)-len(p):] == p]. *)
Definition HasSuffix (s p : string) : bool :=
  (String.length p <=? String.length s)%nat
  && bool_decide (sdrop (String.length s - String.length p) s = p).

(** [strings.Index(s, "\n")], [None] for [-1]. *)
Fixpoint index_nl (s : string) : option nat :=
  match s with
  | EmptyString => None
  | String c s => if ascii_eqb c nl then Some O else S <$> index_nl s
  end.

Definition is_digit (c : ascii) : bool :=
  (48 <=? nat_of_ascii c)%nat && (nat_of_ascii c <=? 57)%nat.

(** [_numberPattern.FindString]: the longest leading run of digits
    (the pattern is [^\d+]). *)
Fixpoint leading_digits (s : string) : string :=
  match s with
  | String c s' => if is_digit c then String c (leading_digits s') else EmptyString
  | EmptyString => EmptyString
  end.

Definition maxInt : Z := 2 ^ 63 - 1.

Fixpoint decimal_value (acc : Z) (s : string) : Z :=
  match s with
  | EmptyString => acc
  | String c s => decimal_value (10 * acc + Z.of_nat (nat_of_ascii c - 48)) s
  end.

(** [strconv.Atoi] on a non-empty string of digits, the error dropped
    as every caller here does ([n, _ := strconv.Atoi(val)]): on overflow
    the value returned with the range error is the largest [int]. *)
Definition Atoi (s : string) : Z := Z.min (decimal_value 0 s) maxInt.

(** [_strPattern.MatchString]: the pattern is [^[a-zA-Z\/.-]]. *)
Definition strPattern_char (c : ascii) : bool :=
  let n := nat_of_ascii c in
  ((97 <=? n)%nat && (n <=? 122)%nat) || ((65 <=? n)%nat && (n <=? 90)%nat)
  || ascii_eqb c "/"%char || ascii_eqb c "."%char || ascii_eqb c "-"%char.

Definition strPattern (s : string) : bool :=
  match s with
  | String c _ => strPattern_char c
  | EmptyString => false
  end.

(* ================================================================== *)
(** ** Library behaviour: UTF-8 and JSON string literals *)
(* ================================================================== *)

(** The size of the well-formed multi-byte sequence at the head of [s],
    by the table of [utf8.DecodeRune]; [None] where [DecodeRune] answers
    [(RuneError, 1)]. *)
Definition in_range (lo hi : nat) (c : ascii) : bool :=
  (lo <=? nat_of_ascii c)%nat && (nat_of_ascii c <=? hi)%nat.

Definition rune_size (s : string) : option nat :=
  match s with
  | String p0 (String b1 rest) =>
      let two := in_range 194 223 p0 && in_range 128 191 b1 in
      let three_head :=
        (ascii_eqb p0 "224"%char && in_range 160 191 b1)
        || ((in_range 225 236 p0 || in_range 238 239 p0) && in_range 128 191 b1)
        || (ascii_eqb p0 "237"%char && in_range 128 159 b1) in
      let four_head :=
        (ascii_eqb p0 "240"%char && in_range 144 191 b1)
        || (in_range 241 243 p0 && in_range 128 191 b1)
        || (ascii_eqb p0 "244"%char && in_range 128 143 b1) in
      if two then Some 2%nat
      else match rest with
           | String b2 rest' =>
               if three_head && in_range 128 191 b2 then Some 3%nat
               else match rest' with
                    | String b3 _ =>
                        if four_head && in_range 128 191 b2 && in_range 128 191 b3
                        then Some 4%nat else None
                    | EmptyString => None
                    end
           | EmptyString => None
           end
  | _ => None
  end.

(** U+FFFD in UTF-8. *)
Definition replacement_char : string :=
  String "239"%char (String "191"%char (String "189"%char EmptyString)).

(** What [encoding/json] makes of a byte string, when it writes it
    ([Marshal]) or reads it ([Unmarshal]): bytes that are not well-formed
    UTF-8 become U+FFFD one by one, everything else is kept. *)
Fixpoint coerce_utf8_go (skip : nat) (s : string) : string :=
  match s with
  | EmptyString => EmptyString
  | String c s' =>
      match skip with
      | S k => String c (coerce_utf8_go k s')
      | O =>
          if (nat_of_ascii c <? 128)%nat then String c (coerce_utf8_go 0 s')
          else match rune_size s with
               | Some n => String c (coerce_utf8_go (n - 1) s')
               | None => replacement_char +:+ coerce_utf8_go 0 s'
               end
      end
  end.

Definition coerce_utf8 (s : string) : string := coerce_utf8_go 0 s.

Definition hex_value (c : ascii) : option Z :=
  let n := nat_of_ascii c in
  if in_range 48 57 c then Some (Z.of_nat (n - 48))
  else if in_range 97 102 c then Some (Z.of_nat (n - 87))
  else if in_range 65 70 c then Some (Z.of_nat (n - 55))
  else None.

(** [getu4] of [encoding/json], on the four characters after [\u]. *)
Definition getu4 (h1 h2 h3 h4 : ascii) : option Z :=
  a ← hex_value h1; b ← hex_value h2; c ← hex_value h3; d ← hex_value h4;
  Some (((a * 16 + b) * 16 + c) * 16 + d).

Definition byte_of_Z (z : Z) : ascii := ascii_of_nat (Z.to_nat z).

(** [utf8.EncodeRune]. *)
Definition encode_rune (r : Z) : string :=
  if r <? 128 then String (byte_of_Z r) EmptyString
  else if r <? 2048 then
    String (byte_of_Z (192 + r / 64)) (String (byte_of_Z (128 + r mod 64)) EmptyString)
  else if ((55296 <=? r) && (r <? 57344)) || (1114111 <? r) then replacement_char
  else if r <? 65536 then
    String (byte_of_Z (224 + r / 4096))
      (String (byte_of_Z (128 + (r / 64) mod 64))
         (String (byte_of_Z (128 + r mod 64)) EmptyString))
  else
    String (byte_of_Z (240 + r / 262144))
      (String (byte_of_Z (128 + (r / 4096) mod 64))
         (String (byte_of_Z (128 + (r / 64) mod 64))
            (String (byte_of_Z (128 + r mod 64)) EmptyString))).

Definition is_surrogate (r : Z) : bool := (55296 <=? r) && (r <? 57344).

(** [utf16.DecodeRune], [None] for the replacement character. *)
Definition utf16_pair (r1 r2 : Z) : option Z :=
  if (55296 <=? r1) && (r1 <? 56320) && (56320 <=? r2) && (r2 <? 57344)
  then Some ((r1 - 55296) * 1024 + (r2 - 56320) + 65536)
  else None.

Definition simple_escape (e : ascii) : option ascii :=
  if ascii_eqb e dquote then Some dquote
  else if ascii_eqb e backslash then Some backslash
  else if ascii_eqb e "/"%char then Some "/"%char
  else if ascii_eqb e "b"%char then Some "008"%char
  else if ascii_eqb e "f"%char then Some "012"%char
  else if ascii_eqb e "n"%char then Some nl
  else if ascii_eqb e "r"%char then Some cr
  else if ascii_eqb e "t"%char then Some "009"%char
  else None.

Definition json_space (c : ascii) : bool :=
  ascii_eqb c " "%char || ascii_eqb c "009"%char || ascii_eqb c cr || ascii_eqb c nl.

Fixpoint all_json_space (s : string) : bool :=
  match s with
  | EmptyString => true
  | String c s => json_space c && all_json_space s
  end.

(** The body of a JSON string literal, after its opening quote: the
    escapes decoded, up to the closing quote, after which only white
    space may follow.  [None] is a syntax error. *)
Fixpoint unescape_body (s : string) : option string :=
  match s with
  | EmptyString => None
  | String c s1 =>
    if ascii_eqb c dquote then
      if all_json_space s1 then Some EmptyString else None
    else if ascii_eqb c backslash then
      match s1 with
      | EmptyString => None
      | String e s2 =>
        if ascii_eqb e "u"%char then
          match s2 with
          | String h1 (String h2 (String h3 (String h4 s3))) =>
            match getu4 h1 h2 h3 h4 with
            | None => None
            | Some rr =>
              if is_surrogate rr then
                match s3 with
                | String b (String u (String k1 (String k2 (String k3 (String k4 s4))))) =>
                  match (if ascii_eqb b backslash && ascii_eqb u "u"%char
                         then rr1 ← getu4 k1 k2 k3 k4; utf16_pair rr rr1
                         else None) with
                  | Some dec => String.app (encode_rune dec) <$> unescape_body s4
                  | None => String.app replacement_char <$> unescape_body s3
                  end
                | _ => String.app replacement_char <$> unescape_body s3
                end
              else String.app (encode_rune rr) <$> unescape_body s3
            end
          | _ => None
          end
        else
          match simple_escape e with
          | Some d => String d <$> unescape_body s2
          | None => None
          end
      end
    else if (nat_of_ascii c <? 32)%nat then None
    else String c <$> unescape_body s1
  end.

(** [json.Unmarshal([]byte(val), &s)] for a [val] that starts with a
    double quote: [Some s] when it succeeds.  Raw bytes of the literal
    that are not well-formed UTF-8 are coerced like everywhere in
    [encoding/json]; the escapes decode to well-formed text, so coercing
    after decoding gives the same bytes. *)
Definition json_unquote (val : string) : option string :=
  match val with
  | String c body =>
      if ascii_eqb c dquote then coerce_utf8 <$> unescape_body body else None
  | EmptyString => None
  end.

(* ================================================================== *)
(** ** The tokenizer *)
(* ================================================================== *)

(** [type Tokenizer struct]; [t_line] is [t.line], and so on. *)
Record Tokenizer := mkTokenizer {
  t_lastNewLine : bool;
  t_line : Z;
  t_col : Z;
  t_tokens : list Token;
}.

(** The zero value, [new(Tokenizer)] or [_Tokenizer{}]. *)
Definition zeroTokenizer : Tokenizer := mkTokenizer false 0 0 [].

(** The [value interface{}] argument of [buildToken]. *)
Inductive go_value := VNil | VString (s : string) | VBool (b : bool) | VInt (n : Z).

Definition assert_string (v : go_value) : exec string :=
  match v with VString s => Ret s | _ => Panic (PanicRuntime InterfaceConversion) end.
Definition assert_bool (v : go_value) : exec bool :=
  match v with VBool b => Ret b | _ => Panic (PanicRuntime InterfaceConversion) end.
Definition assert_int (v : go_value) : exec Z :=
  match v with VInt n => Ret n | _ => Panic (PanicRuntime InterfaceConversion) end.

Definition set_valid (v : TokenValue) : TokenValue :=
  mkTokenValue (vInt v) (vString v) (vBool v) true (vType v).

Definition buildToken (t : Tokenizer) (tt : TokenType) (value : go_value)
  : exec Tokenizer :=
  v ← (if bool_decide (tt = TokenComment) || bool_decide (tt = TokenString) then
         s ← assert_string value;
         Ret (mkTokenValue 0 s false false TokenValueString)
       else if bool_decide (tt = TokenBoolean) then
         b ← assert_bool value;
         Ret (mkTokenValue 0 EmptyString b false TokenValueBool)
       else if bool_decide (tt = TokenNumber) || bool_decide (tt = TokenIndent) then
         n ← assert_int value;
         Ret (mkTokenValue n EmptyString false false TokenValueInt)
       else Ret zeroTokenValue);
  let tk := mkToken (t_line t) (t_col t) tt (set_valid v) in
  if bool_decide (tt = TokenInvalid) then Panic (PanicInt 1)
  else Ret (mkTokenizer (t_lastNewLine t) (t_line t) (t_col t) (t_tokens t ++ [tk])).

(** [for i := 1; input[i] == ' '; i++ { indentSize++ }]: [tail] is
    [input[i:]]; the loop reads [input[i]] without looking at
    [len(input)]. *)
Fixpoint indent_scan (tail : string) (i len indentSize : nat) : exec nat :=
  match tail with
  | EmptyString => Panic (PanicRuntime (IndexOutOfRange i len))
  | String c tail' =>
      if ascii_eqb c " "%char then indent_scan tail' (S i) len (S indentSize)
      else Ret indentSize
  end.

(** The scan for the closing quote: [tail] is [input[i:]], [p1] and [p2]
    are [input[i-1]] and [input[i-2]]; the result is the final [i]. *)
Fixpoint quote_scan (tail : string) (i : nat) (p1 p2 : ascii) : nat :=
  match tail with
  | EmptyString => i
  | String c tail' =>
      if ascii_eqb c dquote then
        let isEscaped := ascii_eqb p1 backslash && negb (ascii_eqb p2 backslash) in
        if negb isEscaped then S i else quote_scan tail' (S i) c p1
      else quote_scan tail' (S i) c p1
  end.

Definition is_delimiter (char : ascii) : bool :=
  ascii_eqb char ":"%char || ascii_eqb char " "%char || ascii_eqb char cr
  || ascii_eqb char nl || ascii_eqb char ","%char.

(** The scan of a bare word: the index of the first delimiter, or
    [len(input)]. *)
Fixpoint ident_scan (tail : string) (i : nat) : nat :=
  match tail with
  | EmptyString => i
  | String char tail' => if is_delimiter char then i else ident_scan tail' (S i)
  end.

(** What one pass through the chain of rules leaves behind: the tokenizer
    and [chop], or the error that [tokenize] returns at once. *)
Inductive scanned :=
  | Chop (t : Tokenizer) (chop : nat)
  | ReturnError (t : Tokenizer) (e : error).

(** The [if ... else if ...] chain of the loop body, on a non-empty
    [input = String c0 rest]. *)
Definition scan (t : Tokenizer) (c0 : ascii) (rest : string) : exec scanned :=
  let input := String c0 rest in
  if ascii_eqb c0 nl || ascii_eqb c0 cr then
    let chop :=
      if (1 <? String.length input)%nat
         && match rest with String c1 _ => ascii_eqb c1 nl | EmptyString => false end
      then 2%nat else 1%nat in
    let t := mkTokenizer (t_lastNewLine t) (t_line t + 1) 0 (t_tokens t) in
    t ← buildToken t TokenNewLine VNil;
    Ret (Chop t chop)
  else if ascii_eqb c0 "#"%char then
    let chop := 1%nat in
    let nextNewLine :=
      match index_nl (sdrop chop input) with
      | Some n => n
      | None => String.length input
      end in
    let nextNewLine := (nextNewLine + chop)%nat in
    val ← slice input chop nextNewLine;
    t ← buildToken t TokenComment (VString val);
    Ret (Chop t nextNewLine)
  else if ascii_eqb c0 " "%char then
    if t_lastNewLine t then
      indentSize ← indent_scan rest 1 (String.length input) 1;
      if (indentSize mod 2 =? 1)%nat then
        Ret (ReturnError t (ErrorsNew "Invalid number of spaces"))
      else
        t ← buildToken t TokenIndent (VInt (Z.of_nat (indentSize / 2)));
        Ret (Chop t indentSize)
    else Ret (Chop t 1)
  else if ascii_eqb c0 dquote then
    let i := quote_scan rest 1 c0 c0 in
    let val := stake i input in
    match json_unquote val with
    | None => t ← buildToken t TokenInvalid VNil; Ret (Chop t i)
    | Some s => t ← buildToken t TokenString (VString s); Ret (Chop t i)
    end
  else if is_digit c0 then
    let val := leading_digits input in
    let n := Atoi val in
    t ← buildToken t TokenNumber (VInt n);
    Ret (Chop t (String.length val))
  else if HasPrefix input "true" then
    t ← buildToken t TokenBoolean (VBool true);
    Ret (Chop t 4)
  else if HasSuffix input "false" then
    t ← buildToken t TokenBoolean (VBool false);
    Ret (Chop t 5)
  else if ascii_eqb c0 ":"%char then
    t ← buildToken t TokenColon VNil;
    Ret (Chop t 1)
  else if ascii_eqb c0 ","%char then
    t ← buildToken t TokenComma VNil;
    Ret (Chop t 1)
  else if strPattern input then
    let i := ident_scan input 0 in
    let name := stake i input in
    t ← buildToken t TokenString (VString name);
    Ret (Chop t i)
  else
    t ← buildToken t TokenInvalid VNil;
    Ret (Chop t 0).

(** One turn of the loop: the rules, then the bookkeeping that follows
    them; [Continue t input'] carries the rest of the input. *)
Inductive stepped :=
  | Continue (t : Tokenizer) (input : string)
  | Return (t : Tokenizer) (e : error).

Definition tokenize_step (t : Tokenizer) (c0 : ascii) (rest : string) : exec stepped :=
  let input := String c0 rest in
  r ← scan t c0 rest;
  match r with
  | ReturnError t e => Ret (Return t e)
  | Chop t chop =>
      t ← (if (chop =? 0)%nat then buildToken t TokenInvalid VNil else Ret t);
      let col := t_col t + Z.of_nat chop in
      lastNewLine ←
        (if ascii_eqb c0 nl then Ret true
         else if ascii_eqb c0 cr then
           c1 ← index_at input 1; Ret (ascii_eqb c1 nl)
         else Ret false);
      let t := mkTokenizer lastNewLine (t_line t) col (t_tokens t) in
      if (chop =? 0)%nat then Panic (PanicString MsgChopIsZero)
      else
        input ← slice_from input chop;
        Ret (Continue t input)
  end.

(** [for len(input) > 0 { ... }], then [buildToken(TokenEOF, nil)] and
    [return nil].  The result holds the tokenizer as the call leaves it
    and the returned [error] ([None] is [nil]). *)
Fixpoint tokenize_loop (fuel : nat) (t : Tokenizer) (input : string)
  : exec (Tokenizer * option error) :=
  match input with
  | EmptyString => t ← buildToken t TokenEOF VNil; Ret (t, None)
  | String c0 rest =>
      match fuel with
      | O => OutOfFuel
      | S fuel =>
          r ← tokenize_step t c0 rest;
          match r with
          | Return t e => Ret (t, Some e)
          | Continue t input => tokenize_loop fuel t input
          end
      end
  end.

(** Every turn removes at least one byte, so [len(input)] turns suffice. *)
Definition tokenize (t : Tokenizer) (input : string) : exec (Tokenizer * option error) :=
  tokenize_loop (String.length input) t input.

(* ================================================================== *)
(** ** The parser *)
(* ================================================================== *)

Definition ValueType_to_nat (v : ValueType) : nat :=
  match v with
  | TokenValueVoid => 0 | TokenValueInt => 1
  | TokenValueString => 2 | TokenValueBool => 3
  end%nat.

Definition ValueType_of_nat (n : nat) : ValueType :=
  match n with
  | 0 => TokenValueVoid | 1 => TokenValueInt
  | 2 => TokenValueString | _ => TokenValueBool
  end%nat.

Global Instance ValueType_countable : Countable ValueType.
Proof.
  refine (inj_countable' ValueType_to_nat ValueType_of_nat _); by intros [].
Defined.

Global Instance TokenValue_countable : Countable TokenValue.
Proof.
  refine (inj_countable'
    (λ v, (vInt v, vString v, vBool v, valid v, vType v))
    (λ '(a, b, c, d, e), mkTokenValue a b c d e) _); by intros [].
Defined.

(** What [parse] returns as [interface{}] and stores in its map: a
    [TokenValue], or a [map[TokenValue]interface{}]. *)
#[warnings="-register-all"] Inductive Node :=
  | Scalar (v : TokenValue)
  | Mapping (m : gmap TokenValue Node).

(** [type Parser struct]; [p_token] is [p.token], and so on. *)
Record Parser := mkParser {
  p_fileLoc : string;
  p_token : Token;
  p_tokens : list Token;
  p_tokenPtr : nat;
  p_comments : list string;
}.

Definition IsEmpty (t : TokenValue) : bool := negb (valid t).

Definition isString (t : Token) : bool :=
  bool_decide (vType (tk_value t) = TokenValueString).

(** The white space of [unicode.IsSpace], as the bytes [strings.TrimSpace]
    meets: the six ASCII characters, and in UTF-8 U+0085, U+00A0, U+1680,
    U+2000 to U+200A, U+2028, U+2029, U+202F, U+205F and U+3000. *)
Definition space1 (c : ascii) : bool :=
  in_range 9 13 c || ascii_eqb c " "%char.

Definition space2 (c0 c1 : ascii) : bool :=
  ascii_eqb c0 "194"%char && (ascii_eqb c1 "133"%char || ascii_eqb c1 "160"%char).

Definition space3 (c0 c1 c2 : ascii) : bool :=
  (ascii_eqb c0 "225"%char && ascii_eqb c1 "154"%char && ascii_eqb c2 "128"%char)
  || (ascii_eqb c0 "226"%char && ascii_eqb c1 "128"%char
      && (in_range 128 138 c2 || ascii_eqb c2 "168"%char
          || ascii_eqb c2 "169"%char || ascii_eqb c2 "175"%char))
  || (ascii_eqb c0 "226"%char && ascii_eqb c1 "129"%char && ascii_eqb c2 "159"%char)
  || (ascii_eqb c0 "227"%char && ascii_eqb c1 "128"%char && ascii_eqb c2 "128"%char).

(** Leading white space removed; with [back] the string is read from its
    end, so the bytes of a character come last byte first. *)
Fixpoint trim_front (back : bool) (s : string) : string :=
  match s with
  | EmptyString => EmptyString
  | String c0 s1 =>
      if space1 c0 then trim_front back s1
      else match s1 with
           | String c1 s2 =>
               if (if back then space2 c1 c0 else space2 c0 c1)
               then trim_front back s2
               else match s2 with
                    | String c2 s3 =>
                        if (if back then space3 c2 c1 c0 else space3 c0 c1 c2)
                        then trim_front back s3
                        else s
                    | EmptyString => s
                    end
           | EmptyString => s
           end
  end.

(** [strings.TrimSpace]. *)
Definition TrimSpace (s : string) : string :=
  String.rev (trim_front true (String.rev (trim_front false s))).

Fixpoint strip_prefix (p s : string) {struct p} : option string :=
  match p, s with
  | EmptyString, _ => Some s
  | String a p, String b s => if ascii_eqb a b then strip_prefix p s else None
  | String _ _, EmptyString => None
  end.

Fixpoint all_digits (s : string) : bool :=
  match s with
  | EmptyString => true
  | String c s => is_digit c && all_digits s
  end.

(** [_versionRegex.FindStringSubmatch], the pattern being
    [^yarn lockfile v(\d+)$]: the text of the group when the whole
    string matches. *)
Definition versionRegex (s : string) : option string :=
  match strip_prefix "yarn lockfile v" s with
  | Some ds =>
      if negb (bool_decide (ds = EmptyString)) && all_digits ds then Some ds else None
  | None => None
  end.

Definition LockfileVersion : Z := 1.

Definition onComment (p : Parser) (token : Token) : exec Parser :=
  if negb (isString token) then Panic (PanicString MsgExpectedStringValue)
  else
    let comment := TrimSpace (vString (tk_value token)) in
    _ ← match versionRegex comment with
        | Some group =>
            let version := Atoi group in
            if LockfileVersion <? version
            then Panic (PanicString (MsgVersionExceeded version LockfileVersion))
            else Ret ()
        | None => Ret ()
        end;
    Ret (mkParser (p_fileLoc p) (p_token p) (p_tokens p) (p_tokenPtr p)
           (p_comments p ++ [comment])).

(** [next], by recursion on the tokens from [p.tokenPtr] on. *)
Fixpoint next_from (rest : list Token) (p : Parser) : exec (Parser * Token) :=
  match rest with
  | [] => Panic (PanicString MsgNoMoreTokens)
  | tk :: rest =>
      let p := mkParser (p_fileLoc p) (p_token p) (p_tokens p)
                 (S (p_tokenPtr p)) (p_comments p) in
      if bool_decide (tk_kind tk = TokenComment) then
        p ← onComment p tk;
        next_from rest p
      else
        Ret (mkParser (p_fileLoc p) tk (p_tokens p) (p_tokenPtr p) (p_comments p), tk)
  end.

Definition next (p : Parser) : exec (Parser * Token) :=
  next_from (drop (p_tokenPtr p) (p_tokens p)) p.

(** The [msg] that [unexpected] is called with. *)
Inductive unexpected_text :=
  | TextNone                                (* the empty string *)
  | TextExpectedString                      (* "Expected string" *)
  | TextInvalidValueType                    (* "Invalid value type" *)
  | TextUnknownToken (propToken : Token).   (* Sprintf("Unknown token: %v", propToken) *)

Definition unexpected {A} (p : Parser) (msg : unexpected_text) : exec A :=
  let line := tk_line (p_token p) in
  let col := tk_col (p_token p) in
  match msg with
  | TextNone => Panic (PanicString MsgUnexpectedToken)
  | TextExpectedString => Panic (PanicString (MsgExpectedString line col (p_fileLoc p)))
  | TextInvalidValueType => Panic (PanicString (MsgInvalidValueType line col (p_fileLoc p)))
  | TextUnknownToken tk => Panic (PanicString (MsgUnknownToken tk line col (p_fileLoc p)))
  end.

Definition expect (p : Parser) (tt : TokenType) : exec Parser :=
  if bool_decide (tk_kind (p_token p) = tt) then fst <$> next p
  else unexpected p TextNone.

Definition eat (p : Parser) (tt : TokenType) : exec (Parser * bool) :=
  if bool_decide (tk_kind (p_token p) = tt) then
    '(p, _) ← next p; Ret (p, true)
  else Ret (p, false).

Definition isValidPropValueToken (token : Token) : bool :=
  bool_decide (tk_kind token = TokenBoolean) || bool_decide (tk_kind token = TokenString)
  || bool_decide (tk_kind token = TokenNumber).

(** [for _, key := range keys { obj[key] = val }]. *)
Definition assign_all (keys : list TokenValue) (val : Node)
    (obj : gmap TokenValue Node) : gmap TokenValue Node :=
  foldl (λ obj key, <[key := val]> obj) obj keys.

(** [for p.token.Type == TokenComma { ... }], the loop that collects
    the further keys. *)
Fixpoint parse_keys (fuel : nat) (p : Parser) (keys : list TokenValue)
  : exec (Parser * list TokenValue) :=
  if bool_decide (tk_kind (p_token p) = TokenComma) then
    match fuel with
    | O => OutOfFuel
    | S fuel =>
        '(p, _) ← next p;
        let keyToken := p_token p in
        _ ← (if bool_decide (tk_kind keyToken ≠ TokenString)
             then unexpected p TextExpectedString else Ret ());
        let key := tk_value keyToken in
        _ ← (if IsEmpty key then Panic (PanicString MsgExpectedKey) else Ret ());
        let keys := keys ++ [key] in
        '(p, _) ← next p;
        parse_keys fuel p keys
    end
  else Ret (p, keys).

(** The [for] loop of [parse(indent)], entered with the map built so
    far; [break] is the [Ret] of the map. *)
Fixpoint parse_loop (fuel : nat) (p : Parser) (indent : Z)
    (obj : gmap TokenValue Node) : exec (Parser * gmap TokenValue Node) :=
  match fuel with
  | O => OutOfFuel
  | S fuel =>
    let propToken := p_token p in
    if bool_decide (tk_kind propToken = TokenNewLine) then
      '(p, nextToken) ← next p;
      if indent =? 0 then parse_loop fuel p indent obj
      else if bool_decide (tk_kind nextToken ≠ TokenIndent) then Ret (p, obj)
      else if vInt (tk_value nextToken) =? indent then
        '(p, _) ← next p;
        parse_loop fuel p indent obj
      else Ret (p, obj)
    else if bool_decide (tk_kind propToken = TokenIndent) then
      if vInt (tk_value propToken) =? indent then
        '(p, _) ← next p;
        parse_loop fuel p indent obj
      else Ret (p, obj)
    else if bool_decide (tk_kind propToken = TokenEOF) then Ret (p, obj)
    else if bool_decide (tk_kind propToken = TokenString) then
      let key := tk_value propToken in
      _ ← (if IsEmpty key then Panic (PanicString MsgExpectedKey) else Ret ());
      '(p, _) ← next p;
      '(p, keys) ← parse_keys fuel p [key];
      let wasColon := bool_decide (tk_kind (p_token p) = TokenColon) in
      p ← (if wasColon then fst <$> next p else Ret p);
      if isValidPropValueToken (p_token p) then
        let obj := assign_all keys (Scalar (tk_value (p_token p))) obj in
        '(p, _) ← next p;
        parse_loop fuel p indent obj
      else if wasColon then
        '(p, val) ← parse_loop fuel p (indent + 1) ∅;
        let obj := assign_all keys (Mapping val) obj in
        if negb (indent =? 0) && bool_decide (tk_kind (p_token p) ≠ TokenIndent)
        then Ret (p, obj)
        else parse_loop fuel p indent obj
      else unexpected p TextInvalidValueType
    else unexpected p (TextUnknownToken propToken)
  end.

(** [parse(indent)]: a new map, then the loop.  An iteration that does
    not leave the loop takes at least one token, so the number of tokens
    bounds the iterations. *)
Definition parse (p : Parser) (indent : Z) : exec (Parser * gmap TokenValue Node) :=
  parse_loop (S (length (p_tokens p))) p indent ∅.

(* ================================================================== *)
(** ** The typed document and the adapter *)
(* ================================================================== *)

(** The element type of [LockFile].  A [nil] map and an empty map are
    both the empty [gmap]. *)
Record Entry := mkEntry {
  Name : string;
  Version : string;
  UID : string;
  Resolved : string;
  Integrity : string;
  Registry : string;
  Dependencies : gmap string string;
  OptionalDependencies : gmap string string;
}.

Global Instance Entry_eq_dec : EqDecision Entry.
Proof. solve_decision. Defined.

(** [type LockFile map[string]struct{...}]. *)
Abbreviation LockFile := (gmap string Entry).

Definition zeroEntry : Entry :=
  mkEntry EmptyString EmptyString EmptyString EmptyString EmptyString EmptyString ∅ ∅.

(** [strconv.Itoa]. *)
Definition Itoa (n : Z) : string := NilZero.string_of_int (Z.to_int n).

(** [TokenValue.MarshalText]. *)
Definition MarshalText (t : TokenValue) : string :=
  match vType t with
  | TokenValueInt => Itoa (vInt t)
  | TokenValueBool => if vBool t then "true" else "false"
  | TokenValueString => vString t
  | TokenValueVoid => "void"
  end.

(** The fields of the struct in declaration order, with their JSON names. *)
Inductive field :=
  | FName | FVersion | FUID | FResolved | FIntegrity | FRegistry
  | FDependencies | FOptionalDependencies.

Definition fields : list field :=
  [FName; FVersion; FUID; FResolved; FIntegrity; FRegistry;
   FDependencies; FOptionalDependencies].

Definition field_name (f : field) : string :=
  match f with
  | FName => "name" | FVersion => "version" | FUID => "uid"
  | FResolved => "resolved" | FIntegrity => "integrity"
  | FRegistry => "registry" | FDependencies => "dependencies"
  | FOptionalDependencies => "optionalDependencies"
  end.

(** [b & caseMask] of [encoding/json]'s fold functions. *)
Definition caseMasked (b : ascii) : nat :=
  let n := nat_of_ascii b in
  if Nat.testbit n 5 then (n - 32)%nat else n.

Definition is_upper_letter (n : nat) : bool := (65 <=? n)%nat && (n <=? 90)%nat.

(** [simpleLetterEqualFold], chosen for a name of letters without
    [k] and [s]. *)
Fixpoint simpleLetterEqualFold (s t : string) : bool :=
  match s, t with
  | EmptyString, EmptyString => true
  | String sb s, String tb t =>
      (caseMasked sb =? caseMasked tb)%nat && simpleLetterEqualFold s t
  | _, _ => false
  end.

(** [equalFoldRight], chosen for an ASCII name that has a [k] or an
    [s]: in the key these also match the Kelvin sign (E2 84 AA) and the
    long s (C5 BF). *)
Fixpoint equalFoldRight (s t : string) : bool :=
  match s with
  | EmptyString => bool_decide (t = EmptyString)
  | String sb s =>
      match t with
      | EmptyString => false
      | String tb t1 =>
          if (nat_of_ascii tb <? 128)%nat then
            (ascii_eqb sb tb
             || (is_upper_letter (caseMasked sb)
                 && (caseMasked sb =? caseMasked tb)%nat))
            && equalFoldRight s t1
          else if ascii_eqb sb "s"%char || ascii_eqb sb "S"%char then
            match t with
            | String "197"%char (String "191"%char t2) => equalFoldRight s t2
            | _ => false
            end
          else if ascii_eqb sb "k"%char || ascii_eqb sb "K"%char then
            match t with
            | String "226"%char (String "132"%char (String "170"%char t3)) =>
                equalFoldRight s t3
            | _ => false
            end
          else false
      end
  end.

(** [foldFunc]: which fold [encoding/json] uses for a field name. *)
Definition has_special_letter (s : string) : bool :=
  existsb (λ b, (caseMasked b =? 75)%nat || (caseMasked b =? 83)%nat)
    (list_ascii_of_string s).

Definition equalFold (f : field) (key : string) : bool :=
  if has_special_letter (field_name f)
  then equalFoldRight (field_name f) key
  else simpleLetterEqualFold (field_name f) key.

(** The field an object key selects: the one of that very name, else the
    first whose name folds to the key. *)
Definition find_field (key : string) : option field :=
  match List.find (λ f, bool_decide (field_name f = key)) fields with
  | Some f => Some f
  | None => List.find (λ f, equalFold f key) fields
  end.

(** The members of the JSON object that [json.Marshal] writes for a
    map: sorted by the text of the key. *)
Definition members (m : gmap TokenValue Node) : list (string * Node) :=
  merge_sort (λ a b, String.le a.1 b.1)
    ((λ kv, (MarshalText kv.1, kv.2)) <$> map_to_list m).

(** A JSON string read into a Go [string]: only a scalar is written as
    a string. *)
Definition as_string (n : Node) : option string :=
  match n with
  | Scalar v => Some (coerce_utf8 (MarshalText v))
  | Mapping _ => None
  end.

(** A JSON object read into a [map[string]string] that may already
    hold entries. *)
Definition as_string_map (n : Node) (old : gmap string string)
  : option (gmap string string) :=
  match n with
  | Scalar _ => None
  | Mapping m =>
      foldl (λ acc kv, acc ← acc; s ← as_string kv.2;
                       Some (<[coerce_utf8 kv.1 := s]> acc))
        (Some old) (members m)
  end.

Definition set_field (e : Entry) (f : field) (n : Node) : option Entry :=
  match f with
  | FName => s ← as_string n;
      Some (mkEntry s (Version e) (UID e) (Resolved e) (Integrity e) (Registry e)
              (Dependencies e) (OptionalDependencies e))
  | FVersion => s ← as_string n;
      Some (mkEntry (Name e) s (UID e) (Resolved e) (Integrity e) (Registry e)
              (Dependencies e) (OptionalDependencies e))
  | FUID => s ← as_string n;
      Some (mkEntry (Name e) (Version e) s (Resolved e) (Integrity e) (Registry e)
              (Dependencies e) (OptionalDependencies e))
  | FResolved => s ← as_string n;
      Some (mkEntry (Name e) (Version e) (UID e) s (Integrity e) (Registry e)
              (Dependencies e) (OptionalDependencies e))
  | FIntegrity => s ← as_string n;
      Some (mkEntry (Name e) (Version e) (UID e) (Resolved e) s (Registry e)
              (Dependencies e) (OptionalDependencies e))
  | FRegistry => s ← as_string n;
      Some (mkEntry (Name e) (Version e) (UID e) (Resolved e) (Integrity e) s
              (Dependencies e) (OptionalDependencies e))
  | FDependencies => d ← as_string_map n (Dependencies e);
      Some (mkEntry (Name e) (Version e) (UID e) (Resolved e) (Integrity e)
              (Registry e) d (OptionalDependencies e))
  | FOptionalDependencies => d ← as_string_map n (OptionalDependencies e);
      Some (mkEntry (Name e) (Version e) (UID e) (Resolved e) (Integrity e)
              (Registry e) (Dependencies e) d)
  end.

(** A JSON value read into the struct: it has to be an object; a member
    whose key selects no field is skipped. *)
Definition as_entry (n : Node) : option Entry :=
  match n with
  | Scalar _ => None
  | Mapping m =>
      foldl (λ acc kv, e ← acc;
                       match find_field (coerce_utf8 kv.1) with
                       | Some f => set_field e f kv.2
                       | None => Some e
                       end)
        (Some zeroEntry) (members m)
  end.

(** [json.Marshal(obj)] followed by [json.Unmarshal(data, &lf)], the
    JSON text between the two left out: [None] when [Unmarshal] reports
    a value of the wrong kind.  [Marshal] itself cannot fail on what
    [parse] builds. *)
Definition to_LockFile (obj : gmap TokenValue Node) : option LockFile :=
  foldl (λ acc kv, lf ← acc; e ← as_entry kv.2;
                   Some (<[coerce_utf8 kv.1 := e]> lf))
    (Some ∅) (members obj).

(* ================================================================== *)
(** ** ParseLockFileData *)
(* ================================================================== *)

(** The body of [ParseLockFileData]: the pair is [(lf, err)], [None]
    standing for [nil]. *)
Definition ParseLockFileData_body (data : string)
  : exec (option LockFile * option error) :=
  '(tokenizer, e) ← tokenize zeroTokenizer data;
  match e with
  | Some e => Ret (None, Some e)
  | None =>
      let parser := mkParser EmptyString zeroToken (t_tokens tokenizer) 0 [] in
      '(parser, _) ← next parser;
      '(parser, obj) ← parse parser 0;
      match to_LockFile obj with
      | None => Ret (None, Some (ErrorsWrapJSON "parse failed"))
      | Some lf => Ret (Some lf, None)
      end
  end.

(** The type switch of the deferred function on the recovered value. *)
Definition recovered_error (v : panic_value) : error :=
  match v with
  | PanicRuntime e => RuntimeError e
  | PanicString m => ParseErr m
  | PanicInt _ => ParseErr MsgUnknownErr
  end.

(** [ParseLockFileData]: the body under its deferred [recover].  A panic
    leaves [lf] at its zero value [nil] and sets [err]. *)
Definition ParseLockFileData (data : string) : exec (option LockFile * option error) :=
  match ParseLockFileData_body data with
  | Panic v => Ret (None, Some (recovered_error v))
  | r => r
  end.

(* ================================================================== *)
(** ** RootElement *)
(* ================================================================== *)

(** [k + "@" + v]. *)
Definition dep_key (k v : string) : string := k +:+ "@" +:+ v.

(** [RootElement]: the set of keys, every [k+"@"+v] of every
    [Dependencies] deleted from it, the rest sorted with [<]. *)
Definition RootElement (f : LockFile) : list string :=
  let keys : gset string := map_fold (λ s _ keys, {[s]} ∪ keys) ∅ f in
  let keys :=
    map_fold (λ _ v keys,
      map_fold (λ k v keys, keys ∖ {[dep_key k v]}) keys (Dependencies v))
      keys f in
  merge_sort String.le (elements keys).

(* ================================================================== *)
(** ** Notions used in the statements *)
(* ================================================================== *)

(** [key] is named by a dependency of some entry of [f]. *)
Definition referenced (f : LockFile) (key : string) : Prop :=
  ∃ s e k v, f !! s = Some e ∧ Dependencies e !! k = Some v ∧ key = dep_key k v.

(** The same through [OptionalDependencies]. *)
Definition optionally_referenced (f : LockFile) (key : string) : Prop :=
  ∃ s e k v,
    f !! s = Some e ∧ OptionalDependencies e !! k = Some v ∧ key = dep_key k v.

(** Go's [<] on strings. *)
Definition string_lt (a b : string) : Prop := String.ltb a b = true.

(** The document of the specification's example of root detection. *)
Definition root_example : LockFile :=
  <["a@^1.0.0" := mkEntry EmptyString EmptyString EmptyString EmptyString
                    EmptyString EmptyString {["b" := "1.0.0"]} ∅]>
    (<["b@1.0.0" := zeroEntry]> ∅).

(** [e] with another [OptionalDependencies]. *)
Definition with_optional (d : gmap string string) (e : Entry) : Entry :=
  mkEntry (Name e) (Version e) (UID e) (Resolved e) (Integrity e) (Registry e)
    (Dependencies e) d.

(** A document in which a key is named by an optional dependency only. *)
Definition optional_example : LockFile :=
  <["a@1" := mkEntry EmptyString EmptyString EmptyString EmptyString
               EmptyString EmptyString ∅ {["b" := "2"]}]>
    (<["b@2" := zeroEntry]> ∅).

(** [n] spaces. *)
Fixpoint spaces (n : nat) : string :=
  match n with
  | O => EmptyString
  | S n => String " "%char (spaces n)
  end.

(** The value of a token that carries none: [TokenValue{}] made valid. *)
Definition voidValue : TokenValue := set_valid zeroTokenValue.

Definition boolValue (b : bool) : TokenValue :=
  mkTokenValue 0 EmptyString b true TokenValueBool.

Definition intValue (n : Z) : TokenValue :=
  mkTokenValue n EmptyString false true TokenValueInt.

Definition stringValue (s : string) : TokenValue :=
  mkTokenValue 0 s false true TokenValueString.

(** [t] after a token of kind [tt] and value [v] was appended at the
    current position. *)
Definition emitted (t : Tokenizer) (tt : TokenType) (v : TokenValue) : Tokenizer :=
  mkTokenizer (t_lastNewLine t) (t_line t) (t_col t)
    (t_tokens t ++ [mkToken (t_line t) (t_col t) tt v]).

(** [t] after the bookkeeping of a turn that chopped [chop] bytes. *)
Definition advanced (t : Tokenizer) (lastNewLine : bool) (chop : nat) : Tokenizer :=
  mkTokenizer lastNewLine (t_line t) (t_col t + Z.of_nat chop) (t_tokens t).

(** The rules that are tried before the literals [true] and [false]. *)
Definition earlier_rule (c0 : ascii) : bool :=
  ascii_eqb c0 nl || ascii_eqb c0 cr || ascii_eqb c0 "#"%char
  || ascii_eqb c0 " "%char || ascii_eqb c0 dquote || is_digit c0.

(** Kinds and values of the tokens of an input, when it tokenizes. *)
Definition token_kinds (input : string) : option (list (TokenType * TokenValue)) :=
  match tokenize zeroTokenizer input with
  | Ret (t, None) => Some ((λ tk, (tk_kind tk, tk_value tk)) <$> t_tokens t)
  | _ => None
  end.

(** The tokens that [next] can still hand out. *)
Definition remaining (p : Parser) : nat := (length (p_tokens p) - p_tokenPtr p)%nat.

(** [p] after [next] moved to the token [tk] that followed directly. *)
Definition moved_to (p : Parser) (tk : Token) : Parser :=
  mkParser (p_fileLoc p) tk (p_tokens p) (S (p_tokenPtr p)) (p_comments p).

(** A panic with the message of the version gate names a version
    beyond the supported one. *)
Definition version_sound (v : panic_value) : Prop :=
  match v with
  | PanicString (MsgVersionExceeded version _) => LockfileVersion < version
  | _ => True
  end.

(** What a call that is handed enough fuel may do to the parser: it
    does not run out of fuel, a panic of the version gate is justified,
    and when the call returns the tokens are the same and the cursor has
    not moved back. *)
Definition advances {A} (p : Parser) (r : exec (Parser * A)) : Prop :=
  match r with
  | OutOfFuel => False
  | Panic v => version_sound v
  | Ret (p', _) =>
      p_tokens p' = p_tokens p ∧ p_fileLoc p' = p_fileLoc p
      ∧ (remaining p' ≤ remaining p)%nat
  end.

(** The call ended, it returned or it panicked, and a panic of the
    version gate is justified. *)
Definition terminates {A} (r : exec A) : Prop :=
  match r with
  | OutOfFuel => False
  | Panic v => version_sound v
  | Ret _ => True
  end.

(** [t'] has the tokens of [t] and perhaps more after them. *)
Definition grows (t t' : Tokenizer) : Prop :=
  ∃ more, t_tokens t' = t_tokens t ++ more.






(** The token at the cursor and the tokens that [next] will hand out. *)
Definition stream (p : Parser) : list Token :=
  p_token p :: drop (p_tokenPtr p) (p_tokens p).

(** A key as the tokenizer makes it: a [String] token, its value valid. *)
Definition key_token (tk : Token) : Prop :=
  tk_kind tk = TokenString ∧ valid (tk_value tk) = true.

(** A further key of a line: a comma and the key. *)
Definition further_key (ck : Token * Token) : Prop :=
  tk_kind ck.1 = TokenComma ∧ key_token ck.2.

(** The tokens of the further keys of a line. *)
Fixpoint more_keys (ks : list (Token * Token)) : list Token :=
  match ks with
  | [] => []
  | ck :: ks => ck.1 :: ck.2 :: more_keys ks
  end.

(** Nothing, or one colon. *)
Definition optional_colon (colon : list Token) : Prop :=
  colon = [] ∨ ∃ c, colon = [c] ∧ tk_kind c = TokenColon.

(** The keys that a line with first key [k0] and further keys [ks]
    collects, in the order of the text. *)
Definition collected (k0 : Token) (ks : list (Token * Token)) : list TokenValue :=
  tk_value k0 :: ((λ ck, tk_value ck.2) <$> ks).

(** A token at line 0, column 0, for the examples. *)
Definition tok (tt : TokenType) (v : TokenValue) : Token := mkToken 0 0 tt v.

(** The parser on [tokens] after its first [next], the first token
    being no comment. *)
Definition primed (tk : Token) (tokens : list Token) : Parser :=
  mkParser EmptyString tk (tk :: tokens) 1 [].

(** The tokens of the line [a, b: 1], but for the first. *)
Definition shared_value_tokens : list Token :=
  [tok TokenComma voidValue; tok TokenString (stringValue "b");
   tok TokenColon voidValue; tok TokenNumber (intValue 1);
   tok TokenNewLine voidValue; tok TokenEOF voidValue].

(** The tokens of the line [a, : 1], but for the first. *)
Definition missing_key_tokens : list Token :=
  [tok TokenComma voidValue; mkToken 0 3 TokenColon voidValue;
   tok TokenNumber (intValue 1); tok TokenEOF voidValue].

(** What a line has after its keys: a scalar with the colon before it,
    if there is one, and the line break after it; or a colon, the line
    break, and the tokens of the lines below, one level further in,
    which make the map [val]. *)
Inductive line_value :=
  | scalar_value (colon : list Token) (v br : Token)
  | block_value (colon br : Token) (body : list Token) (val : gmap TokenValue Node).

Definition value_tokens (lv : line_value) : list Token :=
  match lv with
  | scalar_value colon v br => colon ++ [v; br]
  | block_value colon br body _ => colon :: br :: body
  end.

(** The value that the line's keys get. *)
Definition value_node (lv : line_value) : Node :=
  match lv with
  | scalar_value _ v _ => Scalar (tk_value v)
  | block_value _ _ _ val => Mapping val
  end.

(** The token after the last line of a nested map: no comment, and no
    indentation unless it is that of an outer level. *)
Definition ends_block (indent : Z) (nx : Token) : Prop :=
  tk_kind nx ≠ TokenComment
  ∧ (tk_kind nx ≠ TokenIndent ∨ vInt (tk_value nx) < indent).

(** [body] is the text of a nested map at depth [indent] with the
    content [val]: entered at the line break before [body], as the loop
    enters it after [key:], the recursive [parse(indent)] returns [val]
    and stops at the token after [body]. *)
Definition block_parses (indent : Z) (body : list Token)
    (val : gmap TokenValue Node) : Prop :=
  ∀ (fuel : nat) (p : Parser) (br nx : Token) (rest : list Token),
    tk_kind br = TokenNewLine → ends_block indent nx →
    stream p = br :: body ++ nx :: rest →
    (length (stream p) ≤ fuel)%nat →
    ∃ p', parse_loop fuel p indent ∅ = Ret (p', val) ∧ stream p' = nx :: rest.

Definition value_ok (indent : Z) (lv : line_value) : Prop :=
  match lv with
  | scalar_value colon v br =>
      optional_colon colon ∧ isValidPropValueToken v = true
      ∧ tk_kind br = TokenNewLine
  | block_value colon br body val =>
      tk_kind colon = TokenColon ∧ tk_kind br = TokenNewLine
      ∧ block_parses (indent + 1) body val
  end.

(** A line of keys with its value, as tokens: the first key, the
    further keys, the value (a scalar, or a nested map on the lines
    below), and the indentation that follows when another line of the
    level follows below the top level. *)
Record line := mkLine {
  l_key : Token;
  l_more : list (Token * Token);
  l_value : line_value;
  l_indent : Token;
}.

Definition line_ok (indent : Z) (l : line) : Prop :=
  key_token (l_key l) ∧ Forall further_key (l_more l)
  ∧ value_ok indent (l_value l)
  ∧ tk_kind (l_indent l) = TokenIndent ∧ vInt (tk_value (l_indent l)) = indent.

(** The tokens of the lines of one nesting level, followed by [after]. *)
Fixpoint level_tokens (indent : Z) (ls : list line) (after : list Token)
  : list Token :=
  match ls with
  | [] => after
  | l :: ls =>
      l_key l :: more_keys (l_more l) ++ value_tokens (l_value l)
        ++ match ls with
           | [] => []
           | _ :: _ => if indent =? 0 then [] else [l_indent l]
           end
        ++ level_tokens indent ls after
  end.

Definition line_keys (l : line) : list TokenValue := collected (l_key l) (l_more l).

(** The map after the assignments of the line. *)
Definition bind_line (obj : gmap TokenValue Node) (l : line) : gmap TokenValue Node :=
  assign_all (line_keys l) (value_node (l_value l)) obj.

(** The value on the last line that has [key] among its keys. *)
Definition last_binding (ls : list line) (key : TokenValue) : option Node :=
  (λ l, value_node (l_value l))
    <$> last (filter (λ l, key ∈ line_keys l) ls).

(** The line [v n], one level down. *)
Definition version_line (n : Z) : line :=
  mkLine (tok TokenString (stringValue "v")) []
    (scalar_value [] (tok TokenNumber (intValue n)) (tok TokenNewLine voidValue))
    (tok TokenIndent (intValue 1)).

(** The line [a:] with the line [v n] below it. *)
Definition entry_a (n : Z) : line :=
  mkLine (tok TokenString (stringValue "a")) []
    (block_value (tok TokenColon voidValue) (tok TokenNewLine voidValue)
       (tok TokenIndent (intValue 1) :: level_tokens 1 [version_line n] [])
       (foldl bind_line ∅ [version_line n]))
    (tok TokenIndent (intValue 0)).

(** The lines [a:], [v 1], [a:], [v 2]: the key [a] twice, with a
    nested map each time. *)
Definition twice_a : list line := [entry_a 1; entry_a 2].

(* ================================================================== *)
(** ** The scalar formatter and the encoder *)
(* ================================================================== *)

Fixpoint string_exists (f : ascii → bool) (s : string) : bool :=
  match s with
  | EmptyString => false
  | String c s => f c || string_exists f s
  end.

Fixpoint string_forall (f : ascii → bool) (s : string) : bool :=
  match s with
  | EmptyString => true
  | String c s => f c && string_forall f s
  end.

(** Modelled from the spec: the condition of section 4.3 under which the
    scalar formatter, whose source is not part of the inspected files,
    writes a value without quotes: it starts with a letter, [/], [.] or
    [-], holds none of the delimiters colon, space, CR, LF and comma, is
    not the literal [true] or [false], and is not made of digits only. *)
Definition bare (s : string) : bool :=
  strPattern s
  && negb (string_exists is_delimiter s)
  && negb (bool_decide (s = "true")) && negb (bool_decide (s = "false"))
  && negb (negb (bool_decide (s = EmptyString)) && all_digits s).

Definition hex_digit (n : nat) : ascii :=
  ascii_of_nat (if (n <? 10)%nat then 48 + n else 87 + n).

(** Modelled from the spec: the "standard escaping" of a character
    inside double quotes, the one the tokenizer undoes with a JSON
    decoder: the quote and the backslash behind a backslash, the control
    characters by their short names or as [\u00XX], every other byte as
    it is. *)
Definition escape_char (c : ascii) : string :=
  if ascii_eqb c dquote then String backslash (String dquote EmptyString)
  else if ascii_eqb c backslash then String backslash (String backslash EmptyString)
  else if ascii_eqb c nl then String backslash "n"
  else if ascii_eqb c cr then String backslash "r"
  else if ascii_eqb c "009"%char then String backslash "t"
  else if ascii_eqb c "008"%char then String backslash "b"
  else if ascii_eqb c "012"%char then String backslash "f"
  else if (nat_of_ascii c <? 32)%nat then
    String backslash
      (String "u" (String "0" (String "0"
         (String (hex_digit (nat_of_ascii c / 16))
            (String (hex_digit (nat_of_ascii c mod 16)) EmptyString)))))
  else String c EmptyString.

Fixpoint escape (s : string) : string :=
  match s with
  | EmptyString => EmptyString
  | String c s => escape_char c +:+ escape s
  end.

Definition quote (s : string) : string :=
  String dquote (escape s +:+ String dquote EmptyString).

(** Modelled from the spec: [maybeWrap], the scalar formatter of
    section 4.3 (its source is missing; [TestWrapping] holds examples of
    it): the value as it is when it can stand bare, in double quotes
    otherwise. *)
Definition maybeWrap (s : string) : string :=
  if bare s then s else quote s.

(** [strings.Join]. *)
Fixpoint Join (elems : list string) (sep : string) : string :=
  match elems with
  | [] => EmptyString
  | [s] => s
  | s :: elems => s +:+ sep +:+ Join elems sep
  end.

(** The order in which the encoder writes keys: by their written form. *)
Definition wrapped_le (a b : string) : Prop := String.le (maybeWrap a) (maybeWrap b).

Global Instance wrapped_le_dec : RelDecision wrapped_le.
Proof. intros a b. unfold wrapped_le. apply _. Defined.

(** Modelled from the spec: [encodeMap(m, name, indent)], whose source
    is missing ([TestEncodeMap] holds an example): the line
    [indent name:] and, sorted, one line [indent+2 key value] for every
    entry of the map, key and value through the scalar formatter. *)
Definition encodeMap (m : gmap string string) (name indent : string) : list string :=
  (indent +:+ name +:+ ":")
    :: ((λ kv, indent +:+ "  " +:+ maybeWrap kv.1 +:+ " " +:+ maybeWrap kv.2)
          <$> merge_sort (λ a b, wrapped_le a.1 b.1) (map_to_list m)).

(** A scalar field of an entry: no line when it is empty (an absent
    field and an empty one are the same typed entry). *)
Definition scalar_line (name val : string) : list string :=
  if bool_decide (val = EmptyString) then []
  else ["  " +:+ name +:+ " " +:+ maybeWrap val].

Definition map_lines (name : string) (m : gmap string string) : list string :=
  if bool_decide (m = ∅) then [] else encodeMap m name "  ".

(** Modelled from the spec: the body of an entry (section 4.4), the
    fields in the order of the record. *)
Definition entry_lines (e : Entry) : list string :=
  scalar_line "name" (Name e) ++ scalar_line "version" (Version e)
  ++ scalar_line "uid" (UID e) ++ scalar_line "resolved" (Resolved e)
  ++ scalar_line "integrity" (Integrity e) ++ scalar_line "registry" (Registry e)
  ++ map_lines "dependencies" (Dependencies e)
  ++ map_lines "optionalDependencies" (OptionalDependencies e).

(** Modelled from the spec: the grouping of section 4.4.  The entries
    of the document without repetition, each with the sorted keys that
    map to it. *)
Definition groups (f : LockFile) : list (list string * Entry) :=
  (λ e, (merge_sort wrapped_le
           ((filter (λ kv, kv.2 = e) (map_to_list f)).*1), e))
    <$> remove_dups ((map_to_list f).*2).

(** The line of a group: its keys through the formatter, joined by
    comma and space, and a colon. *)
Definition group_header (keys : list string) : string :=
  Join (maybeWrap <$> keys) ", " +:+ ":".

Definition group_lines (g : list string * Entry) : list string :=
  group_header g.1 :: entry_lines g.2.

(** Every line with its line feed. *)
Fixpoint unlines (lines : list string) : string :=
  match lines with
  | [] => EmptyString
  | l :: lines => l +:+ String nl (unlines lines)
  end.

(** Modelled from the spec: [Encode], the encoder of section 4.4, whose
    source is missing: the groups sorted by their first line, each
    written as that line and the body of its entry.  The text is the
    result; the writer and its I/O errors are left out. *)
Definition Encode (f : LockFile) : string :=
  unlines
    (mjoin (group_lines <$>
              merge_sort (λ a b, String.le (group_header a.1) (group_header b.1))
                (groups f))).

(** A token without its position. *)
Definition erase_tok (tk : Token) : Token := tok (tk_kind tk) (tk_value tk).

(** The parser with the positions of all its tokens erased. *)
Definition erase_parser (p : Parser) : Parser :=
  mkParser (p_fileLoc p) (erase_tok (p_token p)) (erase_tok <$> p_tokens p)
    (p_tokenPtr p) (p_comments p).

(** Two outcomes that differ by the positions of the tokens at most:
    related results on the erased parser, or a panic on both sides. *)
Definition erased {A} (R : A → A → Prop) (r r' : exec (Parser * A)) : Prop :=
  match r, r' with
  | Ret (p, a), Ret (p', a') => p' = erase_parser p ∧ R a a'
  | Panic _, Panic _ => True
  | OutOfFuel, OutOfFuel => True
  | _, _ => False
  end.

(** The token is the same, but for its position. *)
Definition same_token (tk tk' : Token) : Prop := tk' = erase_tok tk.

(** [t] after a line terminator of [chop] bytes: the line counted, the
    [NewLine] token stamped with the new line and column 0, the column
    then advanced by [chop]. *)
Definition after_line_break (t : Tokenizer) (lastNewLine : bool) (chop : nat) : Tokenizer :=
  mkTokenizer lastNewLine (t_line t + 1) (Z.of_nat chop)
    (t_tokens t ++ [mkToken (t_line t + 1) 0 TokenNewLine voidValue]).

(** A printable ASCII byte other than the double quote and the
    backslash. *)
Definition plain_char (c : ascii) : bool :=
  in_range 32 126 c && negb (ascii_eqb c dquote) && negb (ascii_eqb c backslash).

(** The first byte of [s] is a digit. *)
Definition starts_with_digit (s : string) : bool :=
  match s with
  | String c _ => is_digit c
  | EmptyString => false
  end.

(*@DEFS-END@*)

(* ================================================================== *)
(** * Properties *)
(* ================================================================== *)

(** ** Root detection *)

Section root_element.
Implicit Types (f : LockFile) (key : string) (keys : gset string).

Lemma collect_keys_dom f :
  map_fold (λ s (_ : Entry) keys, {[s]} ∪ keys) ∅ f = dom f.
Proof.
  apply (map_fold_weak_ind (λ keys (m : LockFile), keys = dom m)).
  - by rewrite dom_empty_L.
  - intros s e m keys _ ->. by rewrite dom_insert_L.
Qed.

Lemma delete_deps_elem (d : gmap string string) keys key :
  key ∈ map_fold (λ k v keys, keys ∖ {[dep_key k v]}) keys d
  ↔ key ∈ keys ∧ ∀ k v, d !! k = Some v → key ≠ dep_key k v.
Proof.
  apply (map_fold_weak_ind (λ r (m : gmap string string),
    key ∈ r ↔ key ∈ keys ∧ ∀ k v, m !! k = Some v → key ≠ dep_key k v)).
  - split; [intros ?; split; [done|]; intros k v; by rewrite lookup_empty | tauto].
  - intros k v m r Hk IH. rewrite elem_of_difference, IH, elem_of_singleton.
    split.
    + intros [[? Hm] Hne]. split; [done|]. intros k' v' Hl.
      apply lookup_insert_Some in Hl as [[<- <-]|[_ Hl]]; eauto.
    + intros [? Hall]. split; [split; [done|]|].
      * intros k' v' Hl. apply Hall. rewrite lookup_insert_ne; [done|].
        intros <-. congruence.
      * apply Hall. by rewrite lookup_insert_eq.
Qed.

Lemma delete_referenced_elem f keys key :
  key ∈ map_fold (λ (_ : string) v keys,
           map_fold (λ k v keys, keys ∖ {[dep_key k v]}) keys (Dependencies v))
         keys f
  ↔ key ∈ keys ∧ ¬ referenced f key.
Proof.
  apply (map_fold_weak_ind (λ r (m : LockFile),
    key ∈ r ↔ key ∈ keys ∧ ¬ referenced m key)).
  - split; [|tauto]. intros ?. split; [done|].
    intros (s & e & ? & ? & Hs & _). by rewrite lookup_empty in Hs.
  - intros s e m r Hs IH. rewrite delete_deps_elem, IH. split.
    + intros [[? Hm] Hall]. split; [done|].
      intros (s' & e' & k & v & Hl & Hd & ->).
      apply lookup_insert_Some in Hl as [[<- <-]|[_ Hl]].
      * by eapply Hall.
      * apply Hm. by exists s', e', k, v.
    + intros [? Hn]. split; [split; [done|]|].
      * intros (s' & e' & k & v & Hl & Hd & ->). apply Hn.
        exists s', e', k, v. split; [|done].
        rewrite lookup_insert_ne; [done|]. intros <-. congruence.
      * intros k v Hd ->. apply Hn. exists s, e, k, v.
        by rewrite lookup_insert_eq.
Qed.

Lemma RootElement_elem f key :
  key ∈ RootElement f ↔ key ∈ dom f ∧ ¬ referenced f key.
Proof.
  unfold RootElement. rewrite merge_sort_Permutation, elem_of_elements.
  by rewrite delete_referenced_elem, collect_keys_dom.
Qed.

Lemma RootElement_NoDup f : NoDup (RootElement f).
Proof.
  unfold RootElement. rewrite merge_sort_Permutation. apply NoDup_elements.
Qed.

Lemma RootElement_sorted_le f : StronglySorted String.le (RootElement f).
Proof. apply StronglySorted_merge_sort; apply _. Qed.

Lemma string_le_ne_lt a b : String.le a b → a ≠ b → string_lt a b.
Proof.
  unfold String.le, string_lt, String.leb, String.ltb. intros Hle Hne.
  destruct (String.compare a b) eqn:Hc; [|done|done].
  by apply String.compare_eq_iff in Hc.
Qed.

Lemma RootElement_ascending f : StronglySorted string_lt (RootElement f).
Proof.
  pose proof (RootElement_sorted_le f) as Hs.
  pose proof (RootElement_NoDup f) as Hn.
  induction Hs as [|a l Hs IH Hall]; [constructor|].
  apply NoDup_cons in Hn as [Ha Hn]. constructor; [by apply IH|].
  apply Forall_forall. intros b Hb. apply string_le_ne_lt.
  - by eapply Forall_forall in Hall.
  - intros ->. done.
Qed.

Lemma referenced_fmap_optional (g : Entry → gmap string string) f key :
  referenced ((λ e, with_optional (g e) e) <$> f) key ↔ referenced f key.
Proof.
  split.
  - intros (s & e & k & v & Hs & Hd & ->).
    rewrite lookup_fmap in Hs. destruct (f !! s) as [e0|] eqn:Hf; [|done].
    simplify_eq/=. by exists s, e0, k, v.
  - intros (s & e & k & v & Hs & Hd & ->).
    exists s, (with_optional (g e) e), k, v.
    by rewrite lookup_fmap, Hs.
Qed.
End root_element.

Lemma RootElement_unique (f g : LockFile) :
  (∀ key, key ∈ RootElement f ↔ key ∈ RootElement g) →
  RootElement f = RootElement g.
Proof.
  intros Hiff.
  apply (StronglySorted_unique String.le);
    [apply RootElement_sorted_le..|].
  apply NoDup_Permutation; auto using RootElement_NoDup.
Qed.

(** C9: [RootElement] returns exactly the keys of the document that no
    entry names as a dependency [name + "@" + range], in strictly
    ascending byte order; on the example document of the specification
    it returns the single key [a@^1.0.0]. *)
Theorem RootElement_spec (f : LockFile) :
  (∀ key, key ∈ RootElement f ↔ key ∈ dom f ∧ ¬ referenced f key)
  ∧ StronglySorted string_lt (RootElement f)
  ∧ RootElement root_example = ["a@^1.0.0"].
Proof.
  split; [apply RootElement_elem|]. split; [apply RootElement_ascending|].
  by vm_compute.
Qed.

(** C10: [RootElement] never looks at [OptionalDependencies]: a key
    that only optional dependencies name stays in the result, and
    replacing the optional dependencies of every entry by anything
    whatsoever leaves the result as it is. *)
Theorem RootElement_ignores_optional (f : LockFile) (key : string) :
  key ∈ dom f →
  optionally_referenced f key →
  ¬ referenced f key →
  key ∈ RootElement f
  ∧ ∀ g : Entry → gmap string string,
      RootElement ((λ e, with_optional (g e) e) <$> f) = RootElement f.
Proof.
  intros Hdom _ Hnot. split; [by apply RootElement_elem|].
  intros g. apply RootElement_unique. intros key'.
  by rewrite !RootElement_elem, dom_fmap_L, referenced_fmap_optional.
Qed.

Lemma RootElement_ignores_optional_witness :
  "b@2" ∈ dom optional_example
  ∧ optionally_referenced optional_example "b@2"
  ∧ ¬ referenced optional_example "b@2"
  ∧ "b@2" ∈ RootElement optional_example.
Proof.
  assert (H1 : "b@2" ∈ dom optional_example) by (by vm_compute).
  assert (H2 : optionally_referenced optional_example "b@2").
  { exists "a@1", (mkEntry EmptyString EmptyString EmptyString EmptyString
                     EmptyString EmptyString ∅ {["b" := "2"]}), "b", "2".
    by vm_compute. }
  assert (H3 : ¬ referenced optional_example "b@2").
  { intros (s & e & k & v & Hs & Hd & _). unfold optional_example in Hs.
    apply lookup_insert_Some in Hs as [[_ <-]|[_ Hs]]; [done|].
    apply lookup_insert_Some in Hs as [[_ <-]|[_ Hs]]; done. }
  split; [exact H1|]. split; [exact H2|]. split; [exact H3|].
  exact (proj1 (RootElement_ignores_optional optional_example "b@2" H1 H2 H3)).
Defined.

(** ** The tokenizer, rule by rule *)

Ltac exec_simpl :=
  cbn [mbind exec_mbind exec_bind mret exec_mret fmap exec_fmap] in *.

Lemma ascii_eqb_refl (c : ascii) : ascii_eqb c c = true.
Proof. by apply bool_decide_eq_true. Qed.

Lemma ascii_eqb_ne (c d : ascii) : c ≠ d → ascii_eqb c d = false.
Proof. intros. by apply bool_decide_eq_false. Qed.

Lemma length_spaces (n : nat) : String.length (spaces n) = n.
Proof. induction n; simpl; congruence. Qed.

Lemma buildToken_emitted (t : Tokenizer) (tt : TokenType) :
  tt ≠ TokenInvalid →
  (buildToken t tt VNil = Ret (emitted t tt voidValue)
     ∨ tt ∈ [TokenComment; TokenString; TokenBoolean; TokenNumber; TokenIndent])
  ∧ (∀ s, tt = TokenComment ∨ tt = TokenString →
       buildToken t tt (VString s) = Ret (emitted t tt (stringValue s)))
  ∧ (∀ b, tt = TokenBoolean →
       buildToken t tt (VBool b) = Ret (emitted t tt (boolValue b)))
  ∧ (∀ n, tt = TokenNumber ∨ tt = TokenIndent →
       buildToken t tt (VInt n) = Ret (emitted t tt (intValue n))).
Proof.
  intros Hne. repeat split.
  - destruct tt; try (by left); right; set_solver.
  - by intros s [-> | ->].
  - by intros b ->.
  - by intros n [-> | ->].
Qed.

(** The run of spaces that reaches the end of the input. *)
Lemma indent_scan_at_end (n i len k : nat) :
  indent_scan (spaces n) i len k = Panic (PanicRuntime (IndexOutOfRange (i + n) len)).
Proof.
  revert i k. induction n as [|n IH]; intros i k; simpl.
  - by rewrite Nat.add_0_r.
  - rewrite IH. do 3 f_equal. lia.
Qed.

(** The run of spaces that another byte ends. *)
Lemma indent_scan_followed (n i len k : nat) (c : ascii) (rest : string) :
  c ≠ " "%char →
  indent_scan (spaces n +:+ String c rest) i len k = Ret (k + n)%nat.
Proof.
  intros Hc. revert i k. induction n as [|n IH]; intros i k; simpl.
  - rewrite ascii_eqb_ne by done. by rewrite Nat.add_0_r.
  - rewrite IH. f_equal. lia.
Qed.

(** What the code does with a run of [S n] spaces after a line break
    when some other byte follows the run: the error for an odd run, one
    [Indent] token of half the length and the whole run chopped for an
    even one. *)
Lemma scan_indent_followed (t : Tokenizer) (n : nat) (c : ascii) (rest : string) :
  t_lastNewLine t = true →
  c ≠ " "%char →
  scan t " "%char (spaces n +:+ String c rest)
  = if (S n mod 2 =? 1)%nat
    then Ret (ReturnError t (ErrorsNew "Invalid number of spaces"))
    else Ret (Chop (emitted t TokenIndent (intValue (Z.of_nat (S n / 2)))) (S n)).
Proof.
  intros Hl Hc. unfold scan. cbn [ascii_eqb]. 
  change (ascii_eqb " " nl || ascii_eqb " " cr) with false.
  change (ascii_eqb " " "#") with false.
  change (ascii_eqb " " " ") with true. cbv iota. rewrite Hl.
  rewrite indent_scan_followed by done.
  change (1 + n)%nat with (S n). exec_simpl.
  destruct (S n mod 2 =? 1)%nat; done.
Qed.

(** C2: a run of spaces after a line break that reaches the end of the
    input makes the tokenizer read past the input: whatever the parity
    of the run, the call panics with an index out of range, and
    [ParseLockFileData] returns that run-time error. *)
Theorem indent_run_at_end_of_input (n : nat) :
  tokenize zeroTokenizer (String nl (spaces (S n)))
  = Panic (PanicRuntime (IndexOutOfRange (S n) (S n)))
  ∧ ParseLockFileData (String nl (spaces (S n)))
    = Ret (None, Some (RuntimeError (IndexOutOfRange (S n) (S n)))).
Proof.
  assert (tokenize zeroTokenizer (String nl (spaces (S n)))
          = Panic (PanicRuntime (IndexOutOfRange (S n) (S n)))) as Ht.
  { unfold tokenize. simpl String.length. simpl tokenize_loop.
    unfold tokenize_step, scan. change (ascii_eqb " " nl || ascii_eqb " " cr) with false.
    change (ascii_eqb " " "#") with false.
    change (ascii_eqb " " " ") with true. cbv iota. simpl t_lastNewLine. cbv iota.
    rewrite indent_scan_at_end. exec_simpl. simpl String.length.
    by rewrite length_spaces. }
  split; [done|]. unfold ParseLockFileData, ParseLockFileData_body.
  by rewrite Ht.
Qed.

(** C7: a line feed that another line feed follows is taken together
    with it: the two bytes give one [NewLine] token and one increment of
    the line counter, in any state of the tokenizer; the input of two
    line feeds has the tokens [NewLine] and [EOF]. *)
Theorem two_line_feeds_one_token (t : Tokenizer) (rest : string) :
  tokenize_step t nl (String nl rest)
  = Ret (Continue
           (mkTokenizer true (t_line t + 1) 2
              (t_tokens t ++ [mkToken (t_line t + 1) 0 TokenNewLine voidValue]))
           rest)
  ∧ token_kinds (String nl (String nl EmptyString))
    = Some [(TokenNewLine, voidValue); (TokenEOF, voidValue)].
Proof. split; reflexivity. Qed.

Lemma HasSuffix_length (s p : string) :
  HasSuffix s p = true → (String.length p ≤ String.length s)%nat.
Proof.
  unfold HasSuffix. intros [H _]%andb_true_iff. by apply Nat.leb_le.
Qed.

(** C6: [true] is matched at the head of the remaining input and takes
    4 bytes; [false] is matched at the very end of the remaining input,
    whatever stands at its head (provided no earlier rule takes the
    head), and takes 5 bytes from the head.  Neither match looks for a
    delimiter: [truely] gives [Boolean(true)] and leaves [ly]; [false,]
    is no boolean at all; and [a,false] gives [Boolean(false)] for its
    first five bytes [a,fal]. *)
Theorem true_prefix_false_suffix (t : Tokenizer) (c0 : ascii) (rest : string) :
  let input := String c0 rest in
  (HasPrefix input "true" = true →
   tokenize_step t c0 rest
   = Ret (Continue (advanced (emitted t TokenBoolean (boolValue true)) false 4)
            (sdrop 4 input)))
  ∧ (earlier_rule c0 = false →
     HasPrefix input "true" = false →
     HasSuffix input "false" = true →
     tokenize_step t c0 rest
     = Ret (Continue (advanced (emitted t TokenBoolean (boolValue false)) false 5)
              (sdrop 5 input)))
  ∧ token_kinds "truely"
    = Some [(TokenBoolean, boolValue true); (TokenString, stringValue "ly");
            (TokenEOF, voidValue)]
  ∧ token_kinds "false,"
    = Some [(TokenString, stringValue "false"); (TokenComma, voidValue);
            (TokenEOF, voidValue)]
  ∧ token_kinds "a,false"
    = Some [(TokenBoolean, boolValue false); (TokenString, stringValue "se");
            (TokenEOF, voidValue)].
Proof.
  intros input. split; [|split; [|by vm_compute]].
  - intros Hp. subst input.
    destruct rest as [|c1 [|c2 [|c3 rest]]]; simpl in Hp;
      try (by rewrite ?andb_false_r in Hp).
    apply andb_true_iff in Hp as [H0 Hp]. apply andb_true_iff in Hp as [H1 Hp].
    apply andb_true_iff in Hp as [H2 Hp]. apply andb_true_iff in Hp as [H3 _].
    apply bool_decide_eq_true in H0, H1, H2, H3. subst. reflexivity.
  - subst input. intros He Hp Hs. unfold earlier_rule in He.
    repeat (apply orb_false_iff in He as [He ?]).
    pose proof (HasSuffix_length _ _ Hs) as Hlen.
    unfold tokenize_step, scan.
    rewrite He, Hp, Hs. simpl orb.
    repeat match goal with H : _ = false |- _ => rewrite H end.
    simpl in Hlen. unfold slice_from. simpl.
    destruct (Nat.ltb_spec (S (String.length rest)) 5) as [Hlt|_]; [lia|].
    reflexivity.
Qed.

Lemma true_prefix_false_suffix_witness :
  earlier_rule "a" = false
  ∧ HasPrefix "a,false" "true" = false
  ∧ HasSuffix "a,false" "false" = true
  ∧ HasPrefix "truely" "true" = true
  ∧ tokenize_step zeroTokenizer "a" ",false"
    = Ret (Continue (advanced (emitted zeroTokenizer TokenBoolean (boolValue false)) false 5)
             "se")
  ∧ tokenize_step zeroTokenizer "t" "ruely"
    = Ret (Continue (advanced (emitted zeroTokenizer TokenBoolean (boolValue true)) false 4)
             "ly").
Proof.
  pose proof (true_prefix_false_suffix zeroTokenizer "a" ",false") as (_ & Hf & _).
  pose proof (true_prefix_false_suffix zeroTokenizer "t" "ruely") as (Ht & _).
  split; [reflexivity|]. split; [reflexivity|]. split; [reflexivity|].
  split; [reflexivity|]. split; [apply Hf; reflexivity | apply Ht; reflexivity].
Defined.

(** ** The parser: the cursor and the fuel *)

Lemma onComment_same (p p' : Parser) (tk : Token) :
  onComment p tk = Ret p' →
  p_tokens p' = p_tokens p ∧ p_tokenPtr p' = p_tokenPtr p
  ∧ p_fileLoc p' = p_fileLoc p ∧ p_token p' = p_token p.
Proof.
  unfold onComment. destruct (negb (isString tk)); [done|].
  destruct (versionRegex _) as [group|]; exec_simpl.
  - destruct (LockfileVersion <? Atoi group); [done|]. exec_simpl.
    by intros [= <-].
  - by intros [= <-].
Qed.

Lemma next_from_spec (rest : list Token) (p p' : Parser) (tk : Token) :
  next_from rest p = Ret (p', tk) →
  p_tokens p' = p_tokens p ∧ p_fileLoc p' = p_fileLoc p ∧ p_token p' = tk
  ∧ (p_tokenPtr p < p_tokenPtr p' ≤ p_tokenPtr p + length rest)%nat.
Proof.
  revert p. induction rest as [|tk0 rest IH]; intros p; simpl; [done|].
  case_bool_decide.
  - destruct (onComment _ tk0) as [p1| |] eqn:Hc; exec_simpl; [|done..].
    intros H1. apply IH in H1 as (-> & -> & -> & ?).
    apply onComment_same in Hc as (-> & Hp & -> & _). simpl in *.
    repeat split; [done..|lia|lia].
  - intros [= <- <-]. simpl. repeat split; lia.
Qed.

Lemma next_spec (p p' : Parser) (tk : Token) :
  next p = Ret (p', tk) →
  p_tokens p' = p_tokens p ∧ p_fileLoc p' = p_fileLoc p ∧ p_token p' = tk
  ∧ (remaining p' < remaining p)%nat.
Proof.
  unfold next. intros H.
  assert (drop (p_tokenPtr p) (p_tokens p) ≠ []) as Hne.
  { intros Hnil. by rewrite Hnil in H. }
  apply next_from_spec in H as (Ht & ? & ? & Hptr).
  rewrite length_drop in Hptr. unfold remaining. rewrite Ht.
  assert (p_tokenPtr p < length (p_tokens p))%nat.
  { destruct (decide (p_tokenPtr p < length (p_tokens p))%nat); [done|].
    destruct Hne. apply drop_ge. lia. }
  repeat split; [done..|lia].
Qed.

Lemma next_moved_to (p : Parser) (tk : Token) (rest : list Token) :
  drop (p_tokenPtr p) (p_tokens p) = tk :: rest →
  tk_kind tk ≠ TokenComment →
  next p = Ret (moved_to p tk, tk)
  ∧ drop (p_tokenPtr (moved_to p tk)) (p_tokens (moved_to p tk)) = rest.
Proof.
  intros Hd Hk. unfold next. rewrite Hd. simpl.
  rewrite bool_decide_eq_false_2 by done. split; [done|].
  replace (S (p_tokenPtr p)) with (p_tokenPtr p + 1)%nat by lia.
  by rewrite <- drop_drop, Hd.
Qed.

Lemma onComment_terminates (p : Parser) (tk : Token) : terminates (onComment p tk).
Proof.
  unfold onComment. destruct (negb (isString tk)); [done|].
  destruct (versionRegex _) as [group|]; exec_simpl; [|done].
  destruct (LockfileVersion <? Atoi group) eqn:Hv; [|done].
  simpl. by apply Z.ltb_lt.
Qed.

Lemma next_from_terminates (rest : list Token) (p : Parser) :
  terminates (next_from rest p).
Proof.
  revert p. induction rest as [|tk rest IH]; intros p; simpl; [done|].
  case_bool_decide; [|done].
  pose proof (onComment_terminates
    (mkParser (p_fileLoc p) (p_token p) (p_tokens p) (S (p_tokenPtr p))
       (p_comments p)) tk) as Hc.
  destruct (onComment _ tk) as [p1| |]; exec_simpl; [apply IH|done..].
Qed.

Lemma advances_next (p : Parser) : advances p (next p).
Proof.
  pose proof (next_from_terminates (drop (p_tokenPtr p) (p_tokens p)) p) as Ht.
  fold (next p) in Ht.
  destruct (next p) as [[p' tk]| |] eqn:Hn; simpl; [|done..].
  apply next_spec in Hn as (? & ? & ? & ?). repeat split; [done..|lia].
Qed.

Lemma parse_keys_advances (fuel : nat) (p : Parser) (keys : list TokenValue) :
  (remaining p < fuel)%nat → advances p (parse_keys fuel p keys).
Proof.
  revert p keys. induction fuel as [|fuel IH]; intros p keys Hf; [lia|].
  simpl. case_bool_decide; [|simpl; repeat split; lia].
  pose proof (advances_next p) as H1.
  destruct (next p) as [[p1 tk1]| |] eqn:Hn1; exec_simpl; [|done..].
  destruct H1 as (Ht1 & Hl1 & _). apply next_spec in Hn1 as (_ & _ & _ & Hr1).
  case_bool_decide; [by destruct (p_token p1) as [? ? [] ?]|]. exec_simpl.
  destruct (IsEmpty _); [done|]. exec_simpl.
  pose proof (advances_next p1) as H2.
  destruct (next p1) as [[p2 tk2]| |] eqn:Hn2; exec_simpl; [|done..].
  destruct H2 as (Ht2 & Hl2 & _). apply next_spec in Hn2 as (_ & _ & _ & Hr2).
  specialize (IH p2 (keys ++ [tk_value (p_token p1)])).
  destruct (parse_keys fuel p2 _) as [[p3 ks]| |]; simpl in *.
  - destruct IH as (? & ? & ?); [lia|]. repeat split; [congruence..|lia].
  - apply IH. lia.
  - apply IH. lia.
Qed.

Lemma advances_trans {A B} (p p1 : Parser) (a : A) (r : exec (Parser * B)) :
  advances p (Ret (p1, a)) → advances p1 r → advances p r.
Proof.
  intros (Ht & Hl & Hr). destruct r as [[p2 b]| |]; simpl; [|done..].
  intros (? & ? & ?). repeat split; [congruence..|lia].
Qed.

Lemma parse_loop_advances (fuel : nat) (p : Parser) (indent : Z)
    (obj : gmap TokenValue Node) :
  (remaining p < fuel)%nat → advances p (parse_loop fuel p indent obj).
Proof.
  revert p indent obj. induction fuel as [|fuel IH]; intros p indent obj Hf; [lia|].
  assert (∀ (q : Parser) (i : Z) (o : gmap TokenValue Node),
            advances p (Ret (q, ())) → (remaining q ≤ fuel)%nat →
            advances p ('(q', _) ← next q; parse_loop fuel q' i o)) as Hstep.
  { intros q i o Ha Hr.
    pose proof (advances_next q) as Hq.
    destruct (next q) as [[q' tk]| |] eqn:Hn; exec_simpl; [|done..].
    apply (advances_trans p q ()); [done|].
    apply (advances_trans q q' tk); [done|]. apply IH.
    apply next_spec in Hn as (_ & _ & _ & ?). lia. }
  assert (advances p (Ret (p, ()))) as Hpp by (simpl; repeat split; lia).
  simpl. case_bool_decide as Hk1.
  { (* NewLine *)
    pose proof (advances_next p) as Ha1.
    destruct (next p) as [[p1 tk1]| |] eqn:Hn1; exec_simpl; [|done..].
    pose proof Hn1 as (_ & _ & _ & Hr1)%next_spec.
    destruct (indent =? 0).
    { apply (advances_trans p p1 tk1); [done|]. apply IH. lia. }
    case_bool_decide; [done|].
    destruct (vInt _ =? indent); [|done].
    apply (Hstep p1); [done|lia]. }
  case_bool_decide as Hk2.
  { (* Indent *)
    destruct (vInt _ =? indent); [|done].
    apply (Hstep p); [done|lia]. }
  case_bool_decide as Hk3; [done|].
  case_bool_decide as Hk4; [|by destruct (p_token p) as [? ? [] ?]].
  (* String *)
  destruct (IsEmpty _); [done|]. exec_simpl.
  pose proof (advances_next p) as Ha1.
  destruct (next p) as [[p1 tk1]| |] eqn:Hn1; exec_simpl; [|done..].
  pose proof Hn1 as (_ & _ & _ & Hr1)%next_spec.
  pose proof (parse_keys_advances fuel p1 [tk_value (p_token p)]) as Ha2.
  destruct (parse_keys fuel p1 _) as [[p2 keys]| |]; exec_simpl;
    [|apply Ha2; lia..].
  specialize (Ha2 ltac:(lia)).
  assert (advances p (Ret (p2, ()))) as Hp2.
  { by apply (advances_trans p p1 tk1). }
  pose proof Ha2 as (_ & _ & Hr2).
  assert (∀ (wasColon : bool) (p3 : Parser),
            advances p (Ret (p3, ())) → (remaining p3 < fuel)%nat →
            advances p
              (if isValidPropValueToken (p_token p3)
               then '(q, _) ← next p3;
                    parse_loop fuel q indent
                      (assign_all keys (Scalar (tk_value (p_token p3))) obj)
               else if wasColon
               then '(q, val) ← parse_loop fuel p3 (indent + 1) ∅;
                    if negb (indent =? 0)
                       && bool_decide (tk_kind (p_token q) ≠ TokenIndent)
                    then Ret (q, assign_all keys (Mapping val) obj)
                    else parse_loop fuel q indent (assign_all keys (Mapping val) obj)
               else unexpected p3 TextInvalidValueType)) as Hvalue.
  { intros wasColon p3 Hp3 Hr3. destruct (isValidPropValueToken _).
    { apply (Hstep p3); [done|lia]. }
    destruct wasColon; [|done].
    pose proof (IH p3 (indent + 1) ∅ ltac:(lia)) as Ha4.
    destruct (parse_loop fuel p3 _ _) as [[p4 val]| |]; exec_simpl; [|done..].
    assert (advances p (Ret (p4, ()))) as Hp4.
    { apply (advances_trans p p3 ()); [done|]. apply Ha4. }
    destruct (negb _ && _); [apply Hp4|].
    apply (advances_trans p p4 ()); [done|]. apply IH.
    destruct Ha4 as (_ & _ & ?). lia. }
  case_bool_decide as Hcolon; exec_simpl.
  - pose proof (advances_next p2) as Ha3.
    destruct (next p2) as [[p3 tk3]| |] eqn:Hn3; exec_simpl; [|done..].
    pose proof Hn3 as (_ & _ & _ & Hr3)%next_spec.
    apply (Hvalue true); simpl fst; [|lia]. by apply (advances_trans p p2 ()).
  - apply (Hvalue false); [done|lia].
Qed.

(** ** The tokenizer: every turn shortens the input *)

Lemma terminates_bind {A B} (c : exec A) (f : A → exec B) :
  terminates c → (∀ a, c = Ret a → terminates (f a)) → terminates (c ≫= f).
Proof. destruct c as [a| |]; exec_simpl; [|done..]. intros _ H. by apply H. Qed.

Lemma terminates_Ret {A} (a : A) : terminates (Ret a).
Proof. done. Qed.

Lemma terminates_runtime {A} (e : runtime_error) : terminates (@Panic A (PanicRuntime e)).
Proof. done. Qed.

Lemma terminates_advances {A} (p : Parser) (r : exec (Parser * A)) :
  advances p r → terminates r.
Proof. by destruct r as [[]| |]. Qed.

Lemma buildToken_terminates (t : Tokenizer) (tt : TokenType) (v : go_value) :
  terminates (buildToken t tt v).
Proof. unfold buildToken. by destruct tt, v. Qed.

Lemma indent_scan_terminates (tail : string) (i len k : nat) :
  terminates (indent_scan tail i len k).
Proof.
  revert i k. induction tail as [|c tail IH]; intros i k; simpl; [done|].
  by destruct (ascii_eqb c " ").
Qed.

Lemma slice_terminates (s : string) (lo hi : nat) : terminates (slice s lo hi).
Proof. unfold slice. by repeat case_match. Qed.

Lemma scan_terminates (t : Tokenizer) (c0 : ascii) (rest : string) :
  terminates (scan t c0 rest).
Proof.
  unfold scan.
  repeat (first
    [ apply terminates_Ret | apply terminates_runtime
    | apply buildToken_terminates | apply indent_scan_terminates
    | apply slice_terminates
    | apply terminates_bind; [|intros ? _]
    | case_match ]).
Qed.

Lemma length_sdrop (n : nat) (s : string) :
  String.length (sdrop n s) = (String.length s - n)%nat.
Proof.
  revert s. induction n as [|n IH]; intros [|c s]; simpl; auto.
Qed.

Lemma tokenize_step_terminates (t : Tokenizer) (c0 : ascii) (rest : string) :
  terminates (tokenize_step t c0 rest).
Proof.
  unfold tokenize_step. apply terminates_bind; [apply scan_terminates|].
  intros [t1 chop|t1 e] _; [|done].
  repeat (first
    [ apply terminates_Ret | apply terminates_runtime
    | apply buildToken_terminates
    | apply terminates_bind; [|intros ? _]
    | done
    | progress unfold index_at, slice_from
    | case_match ]).
Qed.

Lemma tokenize_step_shorter (t t' : Tokenizer) (c0 : ascii) (rest input' : string) :
  tokenize_step t c0 rest = Ret (Continue t' input') →
  (String.length input' ≤ String.length rest)%nat.
Proof.
  unfold tokenize_step. destruct (scan t c0 rest) as [[t1 chop|t1 e]| |];
    exec_simpl; [|done..].
  destruct (chop =? 0)%nat eqn:Hchop.
  { by destruct (buildToken t1 TokenInvalid VNil) eqn:Hb. }
  exec_simpl. apply Nat.eqb_neq in Hchop.
  match goal with
  | |- (?c ≫= _) = _ → _ => destruct c as [b| |]; exec_simpl; [|done..]
  end.
  unfold slice_from. case_match; [done|]. exec_simpl. intros [= _ <-].
  rewrite length_sdrop. simpl. lia.
Qed.

Lemma tokenize_loop_terminates (fuel : nat) (t : Tokenizer) (input : string) :
  (String.length input ≤ fuel)%nat → terminates (tokenize_loop fuel t input).
Proof.
  revert t input. induction fuel as [|fuel IH]; intros t [|c0 rest] Hlen;
    simpl in Hlen; try lia; cbn [tokenize_loop].
  - apply terminates_bind; [apply buildToken_terminates|done].
  - apply terminates_bind; [apply buildToken_terminates|done].
  - apply terminates_bind; [apply tokenize_step_terminates|].
    intros [t' input'|t' e] Hs; [|done].
    apply IH. apply tokenize_step_shorter in Hs. lia.
Qed.

Lemma tokenize_terminates (t : Tokenizer) (input : string) :
  terminates (tokenize t input).
Proof. by apply tokenize_loop_terminates. Qed.

(** ** The entry point *)

Lemma parse_terminates (p : Parser) (indent : Z) : terminates (parse p indent).
Proof.
  apply (terminates_advances p), parse_loop_advances. unfold remaining. lia.
Qed.

Lemma ParseLockFileData_body_terminates (data : string) :
  terminates (ParseLockFileData_body data).
Proof.
  unfold ParseLockFileData_body.
  apply terminates_bind; [apply tokenize_terminates|].
  intros [tokenizer [e|]] _; [done|].
  apply terminates_bind; [eapply terminates_advances, advances_next|].
  intros [parser tk] _.
  apply terminates_bind; [apply parse_terminates|].
  intros [parser' obj] _. by destruct (to_LockFile obj).
Qed.

(** C3: [ParseLockFileData] always comes back, with a document and no
    error or with an error and no document.  Every panic of the body is
    turned into the returned error by the deferred [recover], and what
    the body returns by itself has the same shape. *)
Theorem ParseLockFileData_all_or_nothing (data : string) :
  ((∃ lf, ParseLockFileData data = Ret (Some lf, None))
   ∨ (∃ err, ParseLockFileData data = Ret (None, Some err)))
  ∧ (∀ v, ParseLockFileData_body data = Panic v →
          ParseLockFileData data = Ret (None, Some (recovered_error v)))
  ∧ (∀ v, ParseLockFileData data ≠ Panic v).
Proof.
  pose proof (ParseLockFileData_body_terminates data) as Hterm.
  unfold ParseLockFileData.
  assert (∀ r, ParseLockFileData_body data = Ret r →
            (∃ lf, r = (Some lf, None)) ∨ (∃ err, r = (None, Some err))) as Hshape.
  { unfold ParseLockFileData_body. intros r.
    destruct (tokenize zeroTokenizer data) as [[tokenizer [e|]]| |];
      exec_simpl; [intros [= <-]; eauto| |done..].
    destruct (next _) as [[parser tk]| |]; exec_simpl; [|done..].
    destruct (parse parser 0) as [[parser' obj]| |]; exec_simpl; [|done..].
    destruct (to_LockFile obj); intros [= <-]; eauto. }
  destruct (ParseLockFileData_body data) as [r|v|] eqn:Hbody.
  - split; [|done]. destruct (Hshape r eq_refl) as [[lf ->]|[err ->]]; eauto.
  - split; [eauto|]. split; [by intros ? [= ->]|done].
  - done.
Qed.

(** ** The tokenizer only appends tokens *)

Lemma grows_refl (t : Tokenizer) : grows t t.
Proof. exists []. by rewrite app_nil_r. Qed.

Lemma grows_trans (t1 t2 t3 : Tokenizer) : grows t1 t2 → grows t2 t3 → grows t1 t3.
Proof. intros [m1 H1] [m2 H2]. exists (m1 ++ m2). by rewrite H2, H1, app_assoc. Qed.

Lemma grows_same_tokens (t t' : Tokenizer) : t_tokens t = t_tokens t' → grows t t'.
Proof. intros H. exists []. by rewrite app_nil_r. Qed.

Lemma buildToken_grows (t t' : Tokenizer) (tt : TokenType) (v : go_value) :
  buildToken t tt v = Ret t' → grows t t'.
Proof.
  unfold buildToken.
  match goal with |- (?c ≫= _) = _ → _ => destruct c as [tv| |] end;
    exec_simpl; [|done..].
  case_bool_decide; [done|]. intros [= <-]. by eexists.
Qed.

Lemma build_chop_grows (t t1 : Tokenizer) (tt : TokenType) (v : go_value)
    (n : nat) (r : scanned) :
  grows t t1 →
  (t' ← buildToken t1 tt v; Ret (Chop t' n)) = Ret r →
  ∃ t' chop, r = Chop t' chop ∧ grows t t'.
Proof.
  intros Hg. destruct (buildToken t1 tt v) as [t'| |] eqn:Hb; exec_simpl; [|done..].
  intros [= <-]. exists t', n. split; [done|].
  eapply grows_trans; [done|]. by eapply buildToken_grows.
Qed.

Ltac scan_branch :=
  match goal with
  | |- (buildToken _ _ _ ≫= _) = Ret _ → _ =>
      let Hx := fresh "Hx" in
      intros Hx; left; revert Hx; apply build_chop_grows;
      first [apply grows_refl | by apply grows_same_tokens]
  | |- Ret (Chop _ _) = Ret _ → _ =>
      intros [= <-]; left; eexists _, _; split; [done|apply grows_refl]
  | |- Ret (ReturnError _ _) = Ret _ → _ => intros [= <-]; by right
  | |- (?c ≫= _) = Ret _ → _ => destruct c; exec_simpl; [|done..]
  | |- (if ?b then _ else _) = Ret _ → _ => destruct b
  | |- match ?x with _ => _ end = Ret _ → _ => destruct x
  end.

Lemma scan_grows (t : Tokenizer) (c0 : ascii) (rest : string) (r : scanned) :
  scan t c0 rest = Ret r →
  (∃ t' chop, r = Chop t' chop ∧ grows t t')
  ∨ r = ReturnError t (ErrorsNew "Invalid number of spaces").
Proof. unfold scan. cbv zeta. repeat scan_branch. Qed.

Lemma tokenize_step_grows (t : Tokenizer) (c0 : ascii) (rest : string) (r : stepped) :
  tokenize_step t c0 rest = Ret r →
  match r with
  | Continue t' _ => grows t t'
  | Return t' e => t' = t ∧ e = ErrorsNew "Invalid number of spaces"
  end.
Proof.
  unfold tokenize_step. destruct (scan t c0 rest) as [s| |] eqn:Hs;
    exec_simpl; [|done..].
  apply scan_grows in Hs as [(t1 & chop & -> & Hg)| ->]; [|by intros [= <-]].
  destruct (chop =? 0)%nat.
  { by destruct (buildToken t1 TokenInvalid VNil) eqn:Hb. }
  exec_simpl.
  match goal with
  | |- (?c ≫= _) = _ → _ => destruct c as [b| |]; exec_simpl; [|done..]
  end.
  destruct (slice_from _ _); exec_simpl; [|done..].
  intros [= <-]. destruct Hg as [more Hg]. by exists more.
Qed.

Lemma tokenize_loop_grows (fuel : nat) (t t' : Tokenizer) (input : string)
    (e : option error) :
  tokenize_loop fuel t input = Ret (t', e) → grows t t'.
Proof.
  revert t input. induction fuel as [|fuel IH]; intros t [|c0 rest];
    cbn [tokenize_loop]; try done.
  - destruct (buildToken _ _ _) eqn:Hb; exec_simpl; [|done..].
    intros [= <- <-]. by eapply buildToken_grows.
  - destruct (buildToken _ _ _) eqn:Hb; exec_simpl; [|done..].
    intros [= <- <-]. by eapply buildToken_grows.
  - destruct (tokenize_step t c0 rest) as [[t1 input1|t1 e1]| |] eqn:Hs;
      exec_simpl; [| |done..].
    + apply tokenize_step_grows in Hs. intros H%IH. by eapply grows_trans.
    + apply tokenize_step_grows in Hs as [-> _]. intros [= <- <-]. apply grows_refl.
Qed.

Lemma tokenize_loop_error (fuel : nat) (t t' : Tokenizer) (input : string) (e : error) :
  tokenize_loop fuel t input = Ret (t', Some e) →
  e = ErrorsNew "Invalid number of spaces".
Proof.
  revert t input. induction fuel as [|fuel IH]; intros t [|c0 rest];
    cbn [tokenize_loop]; try done.
  destruct (tokenize_step t c0 rest) as [[t1 input1|t1 e1]| |] eqn:Hs;
    exec_simpl; [apply IH| |done..].
  apply tokenize_step_grows in Hs as [_ ->]. by intros [= _ <-].
Qed.

(** ** The version gate *)

Lemma app_String (c : ascii) (s r : string) : String c s +:+ r = String c (s +:+ r).
Proof. done. Qed.

Lemma app_empty_l (r : string) : EmptyString +:+ r = r.
Proof. done. Qed.











Lemma decimal_value_nonneg (s : string) (acc : Z) : 0 ≤ acc → 0 ≤ decimal_value acc s.
Proof.
  revert acc. induction s as [|c s IH]; intros acc Ha; simpl; [done|].
  apply IH. lia.
Qed.



Lemma length_append (a b : string) :
  String.length (a +:+ b) = (String.length a + String.length b)%nat.
Proof. induction a as [|c a IH]; [done|]. rewrite app_String. simpl. by rewrite IH. Qed.

Lemma stake_app (a b : string) : stake (String.length a) (a +:+ b) = a.
Proof. induction a as [|c a IH]; [by destruct b|]. rewrite app_String. simpl. by rewrite IH. Qed.

Lemma sdrop_app (a b : string) : sdrop (String.length a) (a +:+ b) = b.
Proof. induction a as [|c a IH]; [done|]. by rewrite app_String. Qed.

Lemma index_nl_app (a b : string) :
  index_nl a = None → index_nl (a +:+ String nl b) = Some (String.length a).
Proof.
  induction a as [|c a IH]; [done|]. rewrite app_String. simpl.
  destruct (ascii_eqb c nl); [done|].
  destruct (index_nl a); [done|]. intros _. by rewrite IH.
Qed.


(** The comment rule on a comment that a line feed ends. *)
Lemma tokenize_step_comment (t : Tokenizer) (body rest : string) :
  index_nl body = None →
  tokenize_step t "#" (body +:+ String nl rest)
  = Ret (Continue
           (advanced (emitted t TokenComment (stringValue body)) false
              (S (String.length body)))
           (String nl rest)).
Proof.
  intros Hnl. unfold tokenize_step, scan.
  change (ascii_eqb "#" nl || ascii_eqb "#" cr) with false.
  change (ascii_eqb "#" "#") with true. cbv iota. cbn [sdrop].
  rewrite index_nl_app by done. unfold slice, slice_from. cbn [String.length].
  rewrite !length_append. cbn [String.length].
  destruct (Nat.ltb_spec (S (String.length body + S (String.length rest)))
              (String.length body + 1)) as [?|_]; [lia|].
  destruct (Nat.ltb_spec (String.length body + 1) 1) as [?|_]; [lia|].
  replace (String.length body + 1 - 1)%nat with (String.length body) by lia.
  cbn [sdrop]. rewrite stake_app. exec_simpl.
  replace (String.length body + 1)%nat with (S (String.length body)) by lia.
  change (buildToken t TokenComment (VString body))
    with (Ret (emitted t TokenComment (stringValue body))).
  exec_simpl. cbn [Nat.eqb]. exec_simpl.
  change (ascii_eqb "#" nl) with false. change (ascii_eqb "#" cr) with false.
  cbv iota. exec_simpl.
  destruct (Nat.ltb_spec (S (String.length body + S (String.length rest)))
              (S (String.length body))) as [?|_]; [lia|].
  exec_simpl. cbn [sdrop]. by rewrite sdrop_app.
Qed.







(** ** The parser on a line of keys and a scalar *)

Lemma next_stream (p : Parser) (a b : Token) (rest : list Token) :
  stream p = a :: b :: rest →
  tk_kind b ≠ TokenComment →
  ∃ p', next p = Ret (p', b) ∧ stream p' = b :: rest
        ∧ p_fileLoc p' = p_fileLoc p ∧ p_tokens p' = p_tokens p.
Proof.
  unfold stream. intros [= Ha Hd] Hb.
  destruct (next_moved_to p b rest Hd Hb) as [Hn Hd'].
  exists (moved_to p b). split; [done|]. by rewrite Hd'.
Qed.

Lemma more_keys_head_not_comment (ks : list (Token * Token)) (stop : Token)
    (rest : list Token) :
  Forall further_key ks → tk_kind stop ≠ TokenComment →
  ∃ h tl, more_keys ks ++ stop :: rest = h :: tl ∧ tk_kind h ≠ TokenComment.
Proof.
  intros Hks Hstop. destruct ks as [|[c k] ks]; simpl; [by eauto|].
  apply Forall_cons in Hks as [[Hc _] _]. simpl in Hc.
  eexists _, _. split; [done|]. by rewrite Hc.
Qed.

Lemma parse_keys_collects (ks : list (Token * Token)) (fuel : nat) (p : Parser)
    (keys : list TokenValue) (stop : Token) (rest : list Token) :
  Forall further_key ks →
  tk_kind stop ≠ TokenComma → tk_kind stop ≠ TokenComment →
  stream p = more_keys ks ++ stop :: rest →
  (length ks ≤ fuel)%nat →
  ∃ p', parse_keys fuel p keys = Ret (p', keys ++ ((λ ck, tk_value ck.2) <$> ks))
        ∧ stream p' = stop :: rest
        ∧ p_fileLoc p' = p_fileLoc p ∧ p_tokens p' = p_tokens p.
Proof.
  intros Hks Hstop1 Hstop2. revert fuel p keys.
  induction Hks as [|[c k] ks [Hc [Hk Hv]] Hks IH]; intros fuel p keys Hs Hf.
  - simpl in Hs. assert (p_token p = stop) as Hp by (by injection Hs).
    exists p. rewrite app_nil_r. split; [|done].
    destruct fuel; simpl; by rewrite Hp, bool_decide_eq_false_2.
  - simpl in Hs, Hc, Hk, Hv, Hf. destruct fuel as [|fuel]; [lia|].
    assert (p_token p = c) as Hp by (by injection Hs).
    cbn [parse_keys]. rewrite Hp, bool_decide_eq_true_2 by done.
    destruct (next_stream p c k _ Hs) as (p1 & -> & Hs1 & Hl1 & Ht1);
      [by rewrite Hk|].
    exec_simpl. assert (p_token p1 = k) as Hp1 by (by injection Hs1).
    rewrite Hp1. rewrite bool_decide_eq_false_2 by (by intros []).
    exec_simpl. unfold IsEmpty. rewrite Hv. cbn [negb]. exec_simpl.
    destruct (more_keys_head_not_comment ks stop rest Hks Hstop2)
      as (h & tl & Heq & Hh).
    rewrite Heq in Hs1.
    destruct (next_stream p1 k h tl Hs1 Hh) as (p2 & -> & Hs2 & Hl2 & Ht2).
    exec_simpl. rewrite <- Heq in Hs2.
    destruct (IH fuel p2 (keys ++ [tk_value k]) Hs2 ltac:(lia))
      as (p' & -> & Hs' & Hl' & Ht').
    exists p'. rewrite fmap_cons, <- app_assoc. cbn [app snd].
    repeat split; [done|congruence..].
Qed.

(** The first token that is no key after a comma stops the parse. *)
Lemma parse_keys_expected_string (ks : list (Token * Token)) (fuel : nat)
    (p : Parser) (keys : list TokenValue) (c bad : Token) (rest : list Token) :
  Forall further_key ks →
  tk_kind c = TokenComma →
  tk_kind bad ≠ TokenString → tk_kind bad ≠ TokenComment →
  stream p = more_keys ks ++ c :: bad :: rest →
  (length ks < fuel)%nat →
  parse_keys fuel p keys
  = Panic (PanicString (MsgExpectedString (tk_line bad) (tk_col bad) (p_fileLoc p))).
Proof.
  intros Hks Hc Hbad1 Hbad2. revert fuel p keys.
  induction Hks as [|[c' k] ks [Hc' [Hk Hv]] Hks IH]; intros fuel p keys Hs Hf.
  - simpl in Hs. destruct fuel as [|fuel]; [lia|].
    assert (p_token p = c) as Hp by (by injection Hs).
    cbn [parse_keys]. rewrite Hp, bool_decide_eq_true_2 by done.
    destruct (next_stream p c bad _ Hs Hbad2) as (p1 & -> & Hs1 & Hl1 & Ht1).
    exec_simpl. assert (p_token p1 = bad) as Hp1 by (by injection Hs1).
    rewrite Hp1, bool_decide_eq_true_2 by done.
    unfold unexpected. by rewrite Hp1, Hl1.
  - simpl in Hs, Hc', Hk, Hv, Hf. destruct fuel as [|fuel]; [lia|].
    assert (p_token p = c') as Hp by (by injection Hs).
    cbn [parse_keys]. rewrite Hp, bool_decide_eq_true_2 by done.
    destruct (next_stream p c' k _ Hs) as (p1 & -> & Hs1 & Hl1 & Ht1);
      [by rewrite Hk|].
    exec_simpl. assert (p_token p1 = k) as Hp1 by (by injection Hs1).
    rewrite Hp1. rewrite bool_decide_eq_false_2 by (by intros []).
    exec_simpl. unfold IsEmpty. rewrite Hv. cbn [negb]. exec_simpl.
    assert (tk_kind c ≠ TokenComment) as Hcc by (by rewrite Hc).
    destruct (more_keys_head_not_comment ks c (bad :: rest) Hks Hcc)
      as (h & tl & Heq & Hh).
    rewrite Heq in Hs1.
    destruct (next_stream p1 k h tl Hs1 Hh) as (p2 & -> & Hs2 & Hl2 & Ht2).
    exec_simpl. rewrite <- Heq in Hs2.
    rewrite (IH fuel p2 (keys ++ [tk_value k]) Hs2 ltac:(lia)).
    by rewrite Hl2, Hl1.
Qed.

Lemma assign_all_lookup (keys : list TokenValue) (val : Node)
    (obj : gmap TokenValue Node) (key : TokenValue) :
  assign_all keys val obj !! key
  = if bool_decide (key ∈ keys) then Some val else obj !! key.
Proof.
  unfold assign_all. revert obj.
  induction keys as [|k keys IH]; intros obj; simpl; [done|].
  rewrite IH. destruct (decide (key = k)) as [->|Hne].
  - rewrite lookup_insert_eq. rewrite (bool_decide_eq_true_2 (k ∈ k :: keys)) by left.
    by case_bool_decide.
  - rewrite lookup_insert_ne by done.
    case_bool_decide as H1; case_bool_decide as H2; try done.
    + destruct H2. by right.
    + apply elem_of_cons in H2 as [?|?]; done.
Qed.

Lemma valid_value_kind (v : Token) :
  isValidPropValueToken v = true →
  tk_kind v ≠ TokenComma ∧ tk_kind v ≠ TokenComment ∧ tk_kind v ≠ TokenColon.
Proof. unfold isValidPropValueToken. by destruct (tk_kind v). Qed.

(** One turn of the loop on a line of keys with a scalar value. *)
Lemma parse_loop_key_line (fuel : nat) (p : Parser) (indent : Z)
    (obj : gmap TokenValue Node) (k0 : Token) (ks : list (Token * Token))
    (colon : list Token) (v nx : Token) (rest : list Token) :
  key_token k0 → Forall further_key ks → optional_colon colon →
  isValidPropValueToken v = true → tk_kind nx ≠ TokenComment →
  stream p = k0 :: more_keys ks ++ colon ++ v :: nx :: rest →
  (length ks ≤ fuel)%nat →
  ∃ p', parse_loop (S fuel) p indent obj
        = parse_loop fuel p' indent
            (assign_all (collected k0 ks) (Scalar (tk_value v)) obj)
        ∧ stream p' = nx :: rest
        ∧ p_fileLoc p' = p_fileLoc p ∧ p_tokens p' = p_tokens p.
Proof.
  intros [Hk0 Hv0] Hks Hcolon Hv Hnx Hs Hf.
  pose proof (valid_value_kind v Hv) as (Hv1 & Hv2 & Hv3).
  assert (p_token p = k0) as Hp by (by injection Hs).
  cbn [parse_loop]. rewrite Hp, Hk0.
  rewrite !bool_decide_eq_false_2 by done. rewrite bool_decide_eq_true_2 by done.
  unfold IsEmpty. rewrite Hv0. cbn [negb]. exec_simpl.
  assert (∃ stop rest', colon ++ v :: nx :: rest = stop :: rest'
            ∧ tk_kind stop ≠ TokenComma ∧ tk_kind stop ≠ TokenComment)
    as (stop & rest' & Heq & Hstop1 & Hstop2).
  { destruct Hcolon as [->|(c & -> & Hc)]; eexists _, _; (split; [done|]);
      [done|by rewrite Hc]. }
  rewrite Heq in Hs.
  destruct (more_keys_head_not_comment ks stop rest' Hks Hstop2)
    as (h & tl & Hh & Hhk).
  rewrite Hh in Hs.
  destruct (next_stream p k0 h tl Hs Hhk) as (p1 & -> & Hs1 & Hl1 & Ht1).
  exec_simpl. rewrite <- Hh in Hs1.
  destruct (parse_keys_collects ks fuel p1 [tk_value k0] stop rest'
              Hks Hstop1 Hstop2 Hs1 Hf) as (p2 & -> & Hs2 & Hl2 & Ht2).
  exec_simpl.
  change ([tk_value k0] ++ ((λ ck : Token * Token, tk_value ck.2) <$> ks))
    with (collected k0 ks).
  assert (p_token p2 = stop) as Hp2 by (by injection Hs2).
  destruct Hcolon as [->|(c & -> & Hc)]; simpl in Heq; injection Heq as <- <-.
  - rewrite Hp2. rewrite (bool_decide_eq_false_2 (tk_kind v = TokenColon)) by done.
    exec_simpl. rewrite Hp2, Hv.
    destruct (next_stream p2 v nx rest Hs2 Hnx) as (p3 & -> & Hs3 & Hl3 & Ht3).
    exec_simpl. exists p3. repeat split; [done|congruence..].
  - rewrite Hp2. rewrite (bool_decide_eq_true_2 (tk_kind c = TokenColon)) by done.
    destruct (next_stream p2 c v (nx :: rest) Hs2 Hv2) as (p3 & -> & Hs3 & Hl3 & Ht3).
    exec_simpl. cbn [fst]. assert (p_token p3 = v) as Hp3 by (by injection Hs3).
    rewrite Hp3, Hv.
    destruct (next_stream p3 v nx rest Hs3 Hnx) as (p4 & -> & Hs4 & Hl4 & Ht4).
    exec_simpl. exists p4. repeat split; [done|congruence..].
Qed.

(** C5: on a line that starts with a key, every token after a comma
    has to be a [String] token, or the parse stops with "Expected
    string" at that token; and when a scalar follows the keys (with or
    without a colon in between), the turn of the loop binds every
    collected key to that one scalar and goes on after it. *)
Theorem keys_share_the_scalar (fuel : nat) (p : Parser) (indent : Z)
    (obj : gmap TokenValue Node) (k0 : Token) (ks : list (Token * Token)) :
  key_token k0 → Forall further_key ks → (length ks < fuel)%nat →
  (∀ (c bad : Token) (rest : list Token),
     tk_kind c = TokenComma →
     tk_kind bad ≠ TokenString → tk_kind bad ≠ TokenComment →
     stream p = k0 :: more_keys ks ++ c :: bad :: rest →
     parse_loop (S fuel) p indent obj
     = Panic (PanicString
                (MsgExpectedString (tk_line bad) (tk_col bad) (p_fileLoc p))))
  ∧ (∀ (colon : list Token) (v nx : Token) (rest : list Token),
       optional_colon colon →
       isValidPropValueToken v = true → tk_kind nx ≠ TokenComment →
       stream p = k0 :: more_keys ks ++ colon ++ v :: nx :: rest →
       ∃ p', parse_loop (S fuel) p indent obj
             = parse_loop fuel p' indent
                 (assign_all (collected k0 ks) (Scalar (tk_value v)) obj)
             ∧ stream p' = nx :: rest
             ∧ ∀ key, key ∈ collected k0 ks →
                 assign_all (collected k0 ks) (Scalar (tk_value v)) obj !! key
                 = Some (Scalar (tk_value v))).
Proof.
  intros Hk0 Hks Hf. split.
  - intros c bad rest Hc Hbad1 Hbad2 Hs. destruct Hk0 as [Hk0 Hv0].
    assert (p_token p = k0) as Hp by (by injection Hs).
    cbn [parse_loop]. rewrite Hp, Hk0.
    rewrite !bool_decide_eq_false_2 by done. rewrite bool_decide_eq_true_2 by done.
    unfold IsEmpty. rewrite Hv0. cbn [negb]. exec_simpl.
    assert (tk_kind c ≠ TokenComment) as Hcc by (by rewrite Hc).
    destruct (more_keys_head_not_comment ks c (bad :: rest) Hks Hcc)
      as (h & tl & Hh & Hhk).
    rewrite Hh in Hs.
    destruct (next_stream p k0 h tl Hs Hhk) as (p1 & -> & Hs1 & Hl1 & Ht1).
    exec_simpl. rewrite <- Hh in Hs1.
    rewrite (parse_keys_expected_string ks fuel p1 [tk_value k0] c bad rest);
      [|done..].
    by rewrite Hl1.
  - intros colon v nx rest Hcolon Hv Hnx Hs.
    destruct (parse_loop_key_line fuel p indent obj k0 ks colon v nx rest)
      as (p' & Heq & Hs' & _); [done..|lia|].
    exists p'. split; [done|]. split; [done|]. intros key Hkey.
    by rewrite assign_all_lookup, bool_decide_eq_true_2.
Qed.

Lemma keys_share_the_scalar_witness :
  (∃ p', parse_loop 3 (primed (tok TokenString (stringValue "a")) shared_value_tokens) 0 ∅
         = parse_loop 2 p' 0
             (assign_all [stringValue "a"; stringValue "b"] (Scalar (intValue 1)) ∅)
         ∧ stream p' = [tok TokenNewLine voidValue; tok TokenEOF voidValue])
  ∧ parse_loop 3 (primed (tok TokenString (stringValue "a")) missing_key_tokens) 0 ∅
    = Panic (PanicString (MsgExpectedString 0 3 EmptyString)).
Proof.
  split.
  - destruct (keys_share_the_scalar 2
                (primed (tok TokenString (stringValue "a")) shared_value_tokens) 0 ∅
                (tok TokenString (stringValue "a"))
                [(tok TokenComma voidValue, tok TokenString (stringValue "b"))])
      as [_ Hok]; [by split|by repeat constructor|simpl; lia|].
    destruct (Hok [tok TokenColon voidValue] (tok TokenNumber (intValue 1))
                (tok TokenNewLine voidValue) [tok TokenEOF voidValue])
      as (p' & Heq & Hs & _); [right; by eexists|reflexivity|done|reflexivity|].
    by exists p'.
  - destruct (keys_share_the_scalar 2
                (primed (tok TokenString (stringValue "a")) missing_key_tokens) 0 ∅
                (tok TokenString (stringValue "a")) [])
      as [Herr _]; [by split|constructor|simpl; lia|].
    apply (Herr (tok TokenComma voidValue) (mkToken 0 3 TokenColon voidValue)
             [tok TokenNumber (intValue 1); tok TokenEOF voidValue]);
      [reflexivity|done|done|reflexivity].
Defined.

(** ** The lines of one nesting level *)

Lemma stream_length (p : Parser) : (length (stream p) ≤ S (length (p_tokens p)))%nat.
Proof. unfold stream. rewrite length_cons, length_drop. lia. Qed.

Lemma length_more_keys (ks : list (Token * Token)) :
  length (more_keys ks) = (2 * length ks)%nat.
Proof. induction ks as [|ck ks IH]; simpl; lia. Qed.

Lemma level_tokens_app (indent : Z) (ls : list line) (after : list Token) :
  level_tokens indent ls after = level_tokens indent ls [] ++ after.
Proof.
  induction ls as [|l ls IH]; [done|].
  cbn [level_tokens]. rewrite IH. cbn [app]. by rewrite <- !app_assoc.
Qed.

(** The loop at the end of the input, or at the indentation of another
    level: it returns what it has. *)
Lemma parse_loop_end (fuel : nat) (p : Parser) (indent : Z)
    (obj : gmap TokenValue Node) (nx : Token) (rest : list Token) :
  stream p = nx :: rest →
  tk_kind nx = TokenEOF ∨ (tk_kind nx = TokenIndent ∧ vInt (tk_value nx) ≠ indent) →
  parse_loop (S fuel) p indent obj = Ret (p, obj).
Proof.
  intros Hs Hnx. assert (p_token p = nx) as Hp by (by injection Hs).
  cbn [parse_loop]. rewrite Hp. destruct Hnx as [Hk|[Hk Hv]]; rewrite Hk.
  - rewrite !bool_decide_eq_false_2 by done. by rewrite bool_decide_eq_true_2.
  - rewrite bool_decide_eq_false_2 by done. rewrite bool_decide_eq_true_2 by done.
    by rewrite (proj2 (Z.eqb_neq _ _) Hv).
Qed.

(** One turn of the loop on a line of keys with a nested map: the
    recursive call makes the map, every key of the line is assigned it,
    and the loop goes on, or returns below the top level when no
    indentation follows. *)
Lemma parse_loop_key_block (fuel : nat) (p : Parser) (indent : Z)
    (obj : gmap TokenValue Node) (k0 : Token) (ks : list (Token * Token))
    (colon br : Token) (body : list Token) (val : gmap TokenValue Node)
    (nx : Token) (rest : list Token) :
  key_token k0 → Forall further_key ks →
  tk_kind colon = TokenColon → tk_kind br = TokenNewLine →
  block_parses (indent + 1) body val → ends_block (indent + 1) nx →
  stream p = k0 :: more_keys ks ++ colon :: br :: body ++ nx :: rest →
  (length (stream p) ≤ S fuel)%nat →
  ∃ p', parse_loop (S fuel) p indent obj
        = (if negb (indent =? 0) && bool_decide (tk_kind nx ≠ TokenIndent)
           then Ret (p', assign_all (collected k0 ks) (Mapping val) obj)
           else parse_loop fuel p' indent
                  (assign_all (collected k0 ks) (Mapping val) obj))
        ∧ stream p' = nx :: rest.
Proof.
  intros [Hk0 Hv0] Hks Hcolon Hbr Hbody Hnx Hs Hf.
  assert (p_token p = k0) as Hp by (by injection Hs).
  rewrite Hs in Hf.
  rewrite length_cons, length_app, length_more_keys, !length_cons in Hf.
  cbn [parse_loop]. rewrite Hp, Hk0.
  rewrite !bool_decide_eq_false_2 by done. rewrite bool_decide_eq_true_2 by done.
  unfold IsEmpty. rewrite Hv0. cbn [negb]. exec_simpl.
  destruct (more_keys_head_not_comment ks colon (br :: body ++ nx :: rest) Hks)
    as (h & tl & Hh & Hhk); [by rewrite Hcolon|].
  rewrite Hh in Hs.
  destruct (next_stream p k0 h tl Hs Hhk) as (p1 & -> & Hs1 & _).
  exec_simpl. rewrite <- Hh in Hs1.
  destruct (parse_keys_collects ks fuel p1 [tk_value k0] colon
              (br :: body ++ nx :: rest) Hks) as (p2 & -> & Hs2 & _);
    [by rewrite Hcolon|by rewrite Hcolon|done|lia|].
  exec_simpl.
  change ([tk_value k0] ++ ((λ ck : Token * Token, tk_value ck.2) <$> ks))
    with (collected k0 ks).
  assert (p_token p2 = colon) as Hp2 by (by injection Hs2).
  rewrite Hp2, (bool_decide_eq_true_2 (tk_kind colon = TokenColon)) by done.
  destruct (next_stream p2 colon br (body ++ nx :: rest) Hs2) as (p3 & -> & Hs3 & _);
    [by rewrite Hbr|].
  exec_simpl. cbn [fst].
  assert (p_token p3 = br) as Hp3 by (by injection Hs3).
  rewrite Hp3. unfold isValidPropValueToken. rewrite Hbr.
  rewrite !bool_decide_eq_false_2 by done. cbn [orb].
  destruct (Hbody fuel p3 br nx rest Hbr Hnx Hs3) as (p4 & -> & Hs4).
  { rewrite Hs3. rewrite length_cons, length_app in *. lia. }
  exec_simpl. assert (p_token p4 = nx) as Hp4 by (by injection Hs4).
  rewrite Hp4. by exists p4.
Qed.

(** The loop over the lines of a level, from the first key of the first
    line to the token after the last line. *)
Lemma parse_loop_level (ls : list line) (fuel : nat) (p : Parser) (indent : Z)
    (obj : gmap TokenValue Node) (nx : Token) (rest : list Token) :
  Forall (line_ok indent) ls →
  tk_kind nx = TokenEOF ∨ (indent ≠ 0 ∧ ends_block indent nx) →
  ls ≠ [] ∨ tk_kind nx = TokenEOF →
  stream p = level_tokens indent ls (nx :: rest) →
  (length (stream p) ≤ fuel)%nat →
  ∃ p', parse_loop fuel p indent obj = Ret (p', foldl bind_line obj ls)
        ∧ stream p' = nx :: rest.
Proof.
  intros Hls Hend.
  assert (tk_kind nx ≠ TokenComment) as Hnc.
  { destruct Hend as [He|[_ [He _]]]; [by rewrite He|done]. }
  assert (ends_block (indent + 1) nx) as Hend1.
  { split; [done|]. destruct Hend as [He|[_ [_ [He|He]]]];
      [left; by rewrite He|by left|right; lia]. }
  revert fuel p obj.
  induction Hls as [|l ls Hl Hls IH]; intros fuel p obj Hne Hs Hf.
  { destruct Hne as [|Heof]; [done|]. simpl in Hs.
    rewrite Hs in Hf. simpl in Hf. destruct fuel as [|fuel]; [lia|].
    exists p. split; [|done]. eapply parse_loop_end; [done|by left]. }
  clear Hne. destruct Hl as (Hk & Hmore & Hval & Hind & Hindv).
  cbn [level_tokens] in Hs.
  set (sep := match ls with
              | [] => []
              | _ :: _ => if indent =? 0 then [] else [l_indent l]
              end) in *.
  set (tail := sep ++ level_tokens indent ls (nx :: rest)) in *.
  (* what follows the line, and how the loop goes on from there *)
  assert (∃ hd tl, tail = hd :: tl ∧ ends_block (indent + 1) hd) as (hd & tl & Htail & Hhd).
  { subst tail sep. destruct ls as [|l' ls'].
    - by eexists _, _.
    - apply Forall_cons in Hls as [([Hk' _] & _) _].
      destruct (indent =? 0); eexists _, _; (split; [done|]).
      + split; [by rewrite Hk'|left; by rewrite Hk'].
      + split; [by rewrite Hind|right; lia]. }
  assert (∀ f q o, stream q = tail → (length (stream q) ≤ f)%nat →
            ∃ p', (if negb (indent =? 0) && bool_decide (tk_kind hd ≠ TokenIndent)
                   then Ret (q, o) else parse_loop f q indent o)
                  = Ret (p', foldl bind_line o ls) ∧ stream p' = nx :: rest)
    as Hgo.
  { intros f q o Hq Hfq. subst tail sep. destruct ls as [|l' ls'].
    - simpl in Htail, Hq. injection Htail as <- <-. cbn [foldl].
      destruct (negb (indent =? 0) && bool_decide (tk_kind nx ≠ TokenIndent)) eqn:Hc;
        [by exists q|].
      rewrite Hq in Hfq. simpl in Hfq. destruct f as [|f]; [lia|].
      exists q. split; [|done]. eapply parse_loop_end; [done|].
      destruct Hend as [He|(Hi & _ & [He|He])]; [by left|..].
      + apply andb_false_iff in Hc as [Hc|Hc].
        * apply negb_false_iff, Z.eqb_eq in Hc. done.
        * by apply bool_decide_eq_false in Hc.
      + apply andb_false_iff in Hc as [Hc|Hc].
        * apply negb_false_iff, Z.eqb_eq in Hc. done.
        * apply bool_decide_eq_false in Hc. right. split; [|lia].
          by destruct (decide (tk_kind nx = TokenIndent)).
    - pose proof Hls as Hls'.
      apply Forall_cons in Hls' as [([Hk' _] & _) _].
      destruct (indent =? 0) eqn:Hi0.
      + cbn [negb andb]. apply IH; [by left|done..].
      + simpl in Htail. injection Htail as <- <-.
        rewrite Hind, bool_decide_eq_false_2 by (by intros []).
        cbn [negb andb]. cbn [app] in Hq.
        assert (p_token q = l_indent l) as Hpq by (by injection Hq).
        rewrite Hq in Hfq. cbn [length] in Hfq.
        destruct f as [|f]; [lia|].
        cbn [parse_loop]. rewrite Hpq, Hind.
        rewrite bool_decide_eq_false_2 by done.
        rewrite bool_decide_eq_true_2 by done.
        rewrite Hindv, Z.eqb_refl.
        cbn [level_tokens] in Hq.
        destruct (next_stream q (l_indent l) (l_key l') _ Hq) as (q1 & -> & Hq1 & _);
          [by rewrite Hk'|].
        exec_simpl. apply IH; [by left|done|].
        rewrite Hq1. cbn [level_tokens] in Hfq |- *. lia. }
  assert (∀ f q o br, tk_kind br = TokenNewLine → stream q = br :: tail →
            (length (stream q) ≤ f)%nat →
            ∃ p', parse_loop f q indent o = Ret (p', foldl bind_line o ls)
                  ∧ stream p' = nx :: rest)
    as Hbreak.
  { intros f q o br Hbr Hq Hfq.
    assert (p_token q = br) as Hpq by (by injection Hq).
    rewrite Hq in Hfq. cbn [length] in Hfq. destruct f as [|f]; [lia|].
    cbn [parse_loop]. rewrite Hpq, Hbr. rewrite bool_decide_eq_true_2 by done.
    rewrite Htail in Hq.
    destruct (next_stream q br hd tl Hq (proj1 Hhd)) as (q1 & -> & Hq1 & _).
    exec_simpl. rewrite <- Htail in Hq1.
    subst tail sep. destruct ls as [|l' ls'].
    - simpl in Htail. injection Htail as <- <-. cbn [foldl].
      destruct (indent =? 0) eqn:Hi0.
      + destruct (Hgo f q1 o Hq1) as (p2 & Hp2 & Hsp2); [rewrite Hq1; lia|].
        cbn [negb andb foldl] in Hp2. by exists p2.
      + case_bool_decide as Hnk; [by exists q1|].
        destruct Hend as [He|(_ & _ & [He|He])]; [by rewrite He in Hnk|done|].
        rewrite (proj2 (Z.eqb_neq _ _)) by lia. by exists q1.
    - pose proof Hls as Hls'.
      apply Forall_cons in Hls' as [([Hk' _] & _) _].
      destruct (indent =? 0) eqn:Hi0.
      + destruct (Hgo f q1 o Hq1) as (p2 & Hp2 & Hsp2); [rewrite Hq1; lia|].
        cbn [negb andb] in Hp2. by exists p2.
      + simpl in Htail. injection Htail as <- <-.
        rewrite Hind. rewrite bool_decide_eq_false_2 by (by intros []).
        rewrite Hindv, Z.eqb_refl. cbn [app level_tokens] in Hq1.
        destruct (next_stream q1 (l_indent l) (l_key l') _ Hq1) as (q2 & -> & Hq2 & _);
          [by rewrite Hk'|].
        exec_simpl. apply IH; [by left|done|].
        rewrite Hq2. cbn [app level_tokens length] in Hfq |- *. lia. }
  clear IH. cbn [foldl]. unfold bind_line at 2. fold (line_keys l).
  destruct (l_value l) as [colon v br|colon br body val]; cbn [value_tokens value_node] in *.
  - destruct Hval as (Hcolon & Hv & Hbr).
    rewrite <- app_assoc in Hs. cbn [app] in Hs.
    rewrite Hs in Hf.
    rewrite length_cons, length_app, length_more_keys, length_app, !length_cons in Hf.
    destruct fuel as [|fuel]; [lia|].
    destruct (parse_loop_key_line fuel p indent obj (l_key l) (l_more l)
                colon v br tail) as (p1 & -> & Hs1 & _);
      [done..|by rewrite Hbr|done|lia|].
    apply (Hbreak fuel p1 _ br Hbr Hs1).
    rewrite Hs1. cbn [length]. lia.
  - destruct Hval as (Hcolon & Hbr & Hbody).
    cbn [app] in Hs. rewrite Htail in Hs.
    pose proof Hf as Hf'. rewrite Hs in Hf'.
    rewrite length_cons, length_app, length_more_keys, !length_cons, length_app,
      length_cons in Hf'.
    destruct fuel as [|fuel]; [lia|].
    destruct (parse_loop_key_block fuel p indent obj (l_key l) (l_more l)
                colon br body val hd tl) as (p1 & -> & Hs1);
      [done..|].
    rewrite <- Htail in Hs1.
    apply (Hgo fuel p1 _ Hs1).
    rewrite Hs1, Htail. cbn [length]. lia.
Qed.

Lemma bindings_lookup (ls : list line) (obj : gmap TokenValue Node) (key : TokenValue) :
  foldl bind_line obj ls !! key
  = match last_binding ls key with Some n => Some n | None => obj !! key end.
Proof.
  induction ls as [|l ls IH] using rev_ind; [done|].
  rewrite foldl_snoc. unfold bind_line at 1. rewrite assign_all_lookup.
  unfold last_binding. rewrite filter_app, filter_cons, filter_nil.
  case_bool_decide as Hkey.
  - rewrite decide_True by done. by rewrite last_snoc.
  - rewrite decide_False by done. by rewrite app_nil_r, IH.
Qed.

(** The lines of a level below the top, with the indentation before the
    first of them, are a nested map. *)
Lemma level_block_parses (indent : Z) (ls : list line) (ind : Token) :
  0 < indent → Forall (line_ok indent) ls → ls ≠ [] →
  tk_kind ind = TokenIndent → vInt (tk_value ind) = indent →
  block_parses indent (ind :: level_tokens indent ls []) (foldl bind_line ∅ ls).
Proof.
  intros Hpos Hls Hne Hind Hindv fuel p br nx rest Hbr Hnx Hs Hf.
  cbn [app] in Hs. rewrite <- level_tokens_app in Hs.
  assert (p_token p = br) as Hp by (by injection Hs).
  rewrite Hs in Hf. cbn [length] in Hf.
  destruct fuel as [|fuel]; [lia|].
  cbn [parse_loop]. rewrite Hp, Hbr. rewrite bool_decide_eq_true_2 by done.
  destruct (next_stream p br ind _ Hs) as (p1 & -> & Hs1 & _); [by rewrite Hind|].
  exec_simpl. rewrite (proj2 (Z.eqb_neq _ _)) by lia.
  rewrite Hind. rewrite bool_decide_eq_false_2 by (by intros []).
  rewrite Hindv, Z.eqb_refl.
  destruct ls as [|l ls]; [done|].
  pose proof Hls as Hls'. apply Forall_cons in Hls' as [([Hk _] & _) _].
  cbn [level_tokens] in Hs1.
  destruct (next_stream p1 ind (l_key l) _ Hs1) as (p2 & -> & Hs2 & _);
    [by rewrite Hk|].
  exec_simpl. apply parse_loop_level; [done|right; split; [lia|done]|by left|done|].
  rewrite Hs2. cbn [level_tokens] in Hf |- *. lia.
Qed.

(** C8: the lines of one nesting level have keys and, each of them, a
    scalar or a nested map on the lines below.  Whatever their number,
    their keys and their values, [parse] returns the map in which every
    key has the value, scalar or map, of the last line that names it;
    the earlier values are gone.  The lines of a level below the top
    are themselves a nested map with that content, so this holds at
    every depth. *)
Theorem last_write_wins (indent : Z) (ls : list line) :
  Forall (line_ok indent) ls →
  (∀ (eof : Token) (p : Parser),
     tk_kind eof = TokenEOF →
     stream p = level_tokens indent ls [eof] →
     ∃ p' obj, parse p indent = Ret (p', obj)
               ∧ ∀ key, obj !! key = last_binding ls key)
  ∧ (∀ ind : Token,
       0 < indent → ls ≠ [] →
       tk_kind ind = TokenIndent → vInt (tk_value ind) = indent →
       block_parses indent (ind :: level_tokens indent ls []) (foldl bind_line ∅ ls))
  ∧ (∀ key, foldl bind_line ∅ ls !! key = last_binding ls key).
Proof.
  intros Hls.
  assert (∀ key, foldl bind_line ∅ ls !! key = last_binding ls key) as Hlast.
  { intros key. rewrite bindings_lookup, lookup_empty.
    by destruct (last_binding ls key). }
  split; [|split; [|done]].
  - intros eof p Heof Hs.
    destruct (parse_loop_level ls (S (length (p_tokens p))) p indent ∅ eof [])
      as (p' & Hp & _); [done|by left|by right|done|apply stream_length|].
    by exists p', (foldl bind_line ∅ ls).
  - intros ind Hpos Hne Hind Hindv. by apply level_block_parses.
Qed.

Lemma last_write_wins_witness :
  ∃ p' obj,
    parse (primed (tok TokenString (stringValue "a"))
             [tok TokenColon voidValue; tok TokenNewLine voidValue;
              tok TokenIndent (intValue 1); tok TokenString (stringValue "v");
              tok TokenNumber (intValue 1); tok TokenNewLine voidValue;
              tok TokenString (stringValue "a");
              tok TokenColon voidValue; tok TokenNewLine voidValue;
              tok TokenIndent (intValue 1); tok TokenString (stringValue "v");
              tok TokenNumber (intValue 2); tok TokenNewLine voidValue;
              tok TokenEOF voidValue]) 0
    = Ret (p', obj)
    ∧ obj !! stringValue "a"
      = Some (Mapping {[ stringValue "v" := Scalar (intValue 2) ]}).
Proof.
  assert (∀ n, Forall (line_ok 1) [version_line n]) as Hinner.
  { intros n. repeat constructor. }
  assert (Forall (line_ok 0) twice_a) as Houter.
  { repeat constructor;
      apply (last_write_wins 1 [version_line _] (Hinner _)); done. }
  destruct (last_write_wins 0 twice_a Houter) as [Hparse _].
  destruct (Hparse (tok TokenEOF voidValue)
              (primed (tok TokenString (stringValue "a"))
                 [tok TokenColon voidValue; tok TokenNewLine voidValue;
                  tok TokenIndent (intValue 1); tok TokenString (stringValue "v");
                  tok TokenNumber (intValue 1); tok TokenNewLine voidValue;
                  tok TokenString (stringValue "a");
                  tok TokenColon voidValue; tok TokenNewLine voidValue;
                  tok TokenIndent (intValue 1); tok TokenString (stringValue "v");
                  tok TokenNumber (intValue 2); tok TokenNewLine voidValue;
                  tok TokenEOF voidValue]))
    as (p' & obj & Hp & Hobj); [reflexivity|reflexivity|].
  exists p', obj. split; [done|]. rewrite Hobj. by vm_compute.
Defined.

(** ** The document does not depend on the positions of the tokens *)

Lemma erased_bind {A B} (R : A → A → Prop) (R' : B → B → Prop)
    (c c' : exec (Parser * A)) (k k' : Parser * A → exec (Parser * B)) :
  erased R c c' →
  (∀ p a a', R a a' → erased R' (k (p, a)) (k' (erase_parser p, a'))) →
  erased R' (c ≫= k) (c' ≫= k').
Proof.
  destruct c as [[p a]| |], c' as [[p' a']| |]; simpl; try done.
  intros [-> HR] Hk. by apply Hk.
Qed.

Lemma onComment_erase (p : Parser) (tk : Token) :
  onComment (erase_parser p) (erase_tok tk) = erase_parser <$> onComment p tk.
Proof.
  unfold onComment. change (isString (erase_tok tk)) with (isString tk).
  destruct (negb (isString tk)); [done|].
  change (vString (tk_value (erase_tok tk))) with (vString (tk_value tk)).
  destruct (versionRegex _) as [group|]; exec_simpl; [|done].
  destruct (LockfileVersion <? Atoi group); exec_simpl; done.
Qed.

Lemma next_from_erase (rest : list Token) (p : Parser) :
  erased same_token (next_from rest p)
    (next_from (erase_tok <$> rest) (erase_parser p)).
Proof.
  revert p. induction rest as [|tk rest IH]; intros p; simpl; [done|].
  change (tk_kind (erase_tok tk)) with (tk_kind tk).
  case_bool_decide; [|done].
  pose proof (onComment_erase
    (mkParser (p_fileLoc p) (p_token p) (p_tokens p) (S (p_tokenPtr p))
       (p_comments p)) tk) as Hc.
  unfold erase_parser at 1 in Hc. simpl in Hc. rewrite Hc.
  destruct (onComment _ tk) as [p1| |]; exec_simpl; [apply IH|done..].
Qed.

Lemma next_erase (p : Parser) : erased same_token (next p) (next (erase_parser p)).
Proof.
  unfold next. simpl. rewrite <- fmap_drop. apply next_from_erase.
Qed.

Lemma parse_keys_erase (fuel : nat) (p : Parser) (keys : list TokenValue) :
  erased eq (parse_keys fuel p keys) (parse_keys fuel (erase_parser p) keys).
Proof.
  revert p keys. induction fuel as [|fuel IH]; intros p keys; simpl;
    change (tk_kind (erase_tok (p_token p))) with (tk_kind (p_token p)).
  - by case_bool_decide.
  - case_bool_decide; [|done].
    eapply erased_bind; [apply next_erase|]. intros p1 tk1 tk1' _. simpl.
    change (tk_kind (erase_tok (p_token p1))) with (tk_kind (p_token p1)).
    case_bool_decide; [done|]. exec_simpl.
    change (tk_value (erase_tok (p_token p1))) with (tk_value (p_token p1)).
    destruct (IsEmpty _); [done|]. exec_simpl.
    eapply erased_bind; [apply next_erase|]. intros p2 tk2 tk2' _. apply IH.
Qed.

Lemma erased_refl_unexpected {A} (p : Parser) (msg : unexpected_text) :
  erased (@eq A) (unexpected p msg) (unexpected (erase_parser p) msg).
Proof. by destruct msg. Qed.

Lemma parse_loop_erase (fuel : nat) (p : Parser) (indent : Z)
    (obj : gmap TokenValue Node) :
  erased eq (parse_loop fuel p indent obj)
    (parse_loop fuel (erase_parser p) indent obj).
Proof.
  revert p indent obj. induction fuel as [|fuel IH]; intros p indent obj; [done|].
  cbn [parse_loop].
  change (p_token (erase_parser p)) with (erase_tok (p_token p)).
  change (tk_kind (erase_tok (p_token p))) with (tk_kind (p_token p)).
  change (tk_value (erase_tok (p_token p))) with (tk_value (p_token p)).
  case_bool_decide as Hk1.
  { eapply erased_bind; [apply next_erase|]. intros p1 tk1 tk1' ->. simpl.
    destruct (indent =? 0); [apply IH|].
    case_bool_decide; [done|].
    destruct (vInt _ =? indent); [|done].
    eapply erased_bind; [apply next_erase|]. intros p2 tk2 tk2' _. apply IH. }
  case_bool_decide as Hk2.
  { destruct (vInt _ =? indent); [|done].
    eapply erased_bind; [apply next_erase|]. intros p2 tk2 tk2' _. apply IH. }
  case_bool_decide as Hk3; [done|].
  case_bool_decide as Hk4; [|done].
  destruct (IsEmpty _); [done|]. exec_simpl.
  eapply erased_bind; [apply next_erase|]. intros p1 tk1 tk1' _. simpl.
  eapply erased_bind; [apply parse_keys_erase|]. intros p2 keys keys' <-. simpl.
  change (tk_kind (erase_tok (p_token p2))) with (tk_kind (p_token p2)).
  assert (∀ (wasColon : bool) (p3 : Parser),
            erased eq
              (if isValidPropValueToken (p_token p3)
               then '(q, _) ← next p3;
                    parse_loop fuel q indent
                      (assign_all keys (Scalar (tk_value (p_token p3))) obj)
               else if wasColon
               then '(q, val) ← parse_loop fuel p3 (indent + 1) ∅;
                    if negb (indent =? 0)
                       && bool_decide (tk_kind (p_token q) ≠ TokenIndent)
                    then Ret (q, assign_all keys (Mapping val) obj)
                    else parse_loop fuel q indent (assign_all keys (Mapping val) obj)
               else unexpected p3 TextInvalidValueType)
              (if isValidPropValueToken (p_token (erase_parser p3))
               then '(q, _) ← next (erase_parser p3);
                    parse_loop fuel q indent
                      (assign_all keys
                         (Scalar (tk_value (p_token (erase_parser p3)))) obj)
               else if wasColon
               then '(q, val) ← parse_loop fuel (erase_parser p3) (indent + 1) ∅;
                    if negb (indent =? 0)
                       && bool_decide (tk_kind (p_token q) ≠ TokenIndent)
                    then Ret (q, assign_all keys (Mapping val) obj)
                    else parse_loop fuel q indent (assign_all keys (Mapping val) obj)
               else unexpected (erase_parser p3) TextInvalidValueType)) as Hvalue.
  { intros wasColon p3.
    change (isValidPropValueToken (p_token (erase_parser p3)))
      with (isValidPropValueToken (p_token p3)).
    change (tk_value (p_token (erase_parser p3))) with (tk_value (p_token p3)).
    destruct (isValidPropValueToken _).
    { eapply erased_bind; [apply next_erase|]. intros q tk tk' _. apply IH. }
    destruct wasColon; [|apply erased_refl_unexpected].
    eapply erased_bind; [apply IH|]. intros q val val' <-. simpl.
    change (tk_kind (erase_tok (p_token q))) with (tk_kind (p_token q)).
    destruct (negb _ && _); [done|]. apply IH. }
  case_bool_decide as Hcolon; exec_simpl.
  - pose proof (next_erase p2) as Hn.
    destruct (next p2) as [[p3 tk3]| |], (next (erase_parser p2)) as [[p3' tk3']| |];
      simpl in Hn; try done.
    destruct Hn as [-> _]. exec_simpl. apply (Hvalue true).
  - apply (Hvalue false).
Qed.

(** ** The parser on the tokens of an encoded document *)

Lemma stream_token (p : Parser) (a : Token) (l : list Token) :
  stream p = a :: l → p_token p = a.
Proof. by intros [= ? _]. Qed.

Ltac take_next Hs p' Hs' :=
  let Hn := fresh "Hn" in
  destruct (next_stream _ _ _ _ Hs) as (p' & Hn & Hs' & _ & _);
  [done|rewrite Hn; clear Hn; exec_simpl].

(* ================================================================== *)
(** * Further properties of the tokenizer *)
(* ================================================================== *)

(** X1: every turn of the tokenizer's loop that goes on leaves strictly
    less input than it found (no turn chops zero bytes and continues),
    so the loop ends after at most [len(input)] turns, whatever the
    state it starts from. *)
Theorem tokenize_makes_progress (t t' : Tokenizer) (c0 : ascii) (rest input' : string) :
  tokenize_step t c0 rest = Ret (Continue t' input') →
  (String.length input' < String.length (String c0 rest))%nat
  ∧ ∀ (t0 : Tokenizer) (input : string), tokenize t0 input ≠ OutOfFuel.
Proof.
  intros Hs. split.
  - apply tokenize_step_shorter in Hs. simpl. lia.
  - intros t0 input Heq. pose proof (tokenize_terminates t0 input) as Ht.
    by rewrite Heq in Ht.
Qed.

Lemma tokenize_makes_progress_witness :
  tokenize_step zeroTokenizer "a" "b c"
  = Ret (Continue (advanced (emitted zeroTokenizer TokenString (stringValue "ab")) false 2) " c")
  ∧ (String.length " c" < String.length "ab c")%nat.
Proof.
  split; [reflexivity|].
  exact (proj1 (tokenize_makes_progress zeroTokenizer _ "a" "b c" " c" eq_refl)).
Defined.

Lemma tokenize_loop_last_EOF (fuel : nat) (t t' : Tokenizer) (input : string) :
  tokenize_loop fuel t input = Ret (t', None) →
  ∃ init line col,
    t_tokens t' = t_tokens t ++ init ++ [mkToken line col TokenEOF voidValue].
Proof.
  revert t input. induction fuel as [|fuel IH]; intros t [|c0 rest];
    cbn [tokenize_loop]; try done.
  - intros [= <-]. by exists [], (t_line t), (t_col t).
  - intros [= <-]. by exists [], (t_line t), (t_col t).
  - destruct (tokenize_step t c0 rest) as [[t1 input1|t1 e1]| |] eqn:Hs;
      exec_simpl; [|done..].
    apply tokenize_step_grows in Hs as [more Hm].
    intros (init & line & col & Hi)%IH.
    exists (more ++ init), line, col. by rewrite Hi, Hm, <- !app_assoc.
Qed.

(** X2: the tokenizer only ever appends: the tokens a call finds are a
    prefix of the tokens it leaves.  The one error it returns is
    "Invalid number of spaces"; and when it returns no error the last
    token is the [EOF] token. *)
Theorem tokenize_appends (t t' : Tokenizer) (input : string) (e : option error) :
  tokenize t input = Ret (t', e) →
  (∃ more, t_tokens t' = t_tokens t ++ more)
  ∧ match e with
    | Some err => err = ErrorsNew "Invalid number of spaces"
    | None => ∃ init line col,
        t_tokens t' = t_tokens t ++ init ++ [mkToken line col TokenEOF voidValue]
    end.
Proof.
  unfold tokenize. intros Ht. split; [by eapply tokenize_loop_grows|].
  destruct e as [err|].
  - by eapply tokenize_loop_error.
  - by eapply tokenize_loop_last_EOF.
Qed.

Lemma tokenize_appends_witness :
  ∃ t', tokenize (emitted zeroTokenizer TokenColon voidValue) "a"
        = Ret (t', None)
        ∧ ∃ more, t_tokens t' = [mkToken 0 0 TokenColon voidValue] ++ more.
Proof.
  eexists. split; [reflexivity|].
  exact (proj1 (tokenize_appends (emitted zeroTokenizer TokenColon voidValue) _ "a"
                  None eq_refl)).
Defined.

Lemma sdrop_spaces (n : nat) (s : string) : sdrop n (spaces n +:+ s) = s.
Proof. rewrite <- (length_spaces n) at 1. apply sdrop_app. Qed.

(** X3: a space.  After a line break a run of [S n] spaces that another
    byte ends is an error when its length is odd, and otherwise gives
    one [Indent] token that carries half the length, the whole run being
    consumed.  Anywhere else a space is skipped alone and gives no
    token. *)
Theorem space_rule (t : Tokenizer) (n : nat) (c : ascii) (rest : string) :
  c ≠ " "%char →
  (t_lastNewLine t = true →
   tokenize_step t " " (spaces n +:+ String c rest)
   = if Nat.odd (S n)
     then Ret (Return t (ErrorsNew "Invalid number of spaces"))
     else Ret (Continue
                 (advanced (emitted t TokenIndent (intValue (Z.of_nat (S n / 2))))
                    false (S n))
                 (String c rest)))
  ∧ (t_lastNewLine t = false →
     ∀ rest', tokenize_step t " " rest' = Ret (Continue (advanced t false 1) rest')).
Proof.
  intros Hc. split.
  - intros Hl. unfold tokenize_step. rewrite scan_indent_followed by done.
    assert ((S n mod 2 =? 1)%nat = Nat.odd (S n)) as ->.
    { rewrite <- Nat.bit0_mod, Nat.bit0_odd. by destruct (Nat.odd (S n)). }
    destruct (Nat.odd (S n)); [done|]. exec_simpl. cbn [Nat.eqb]. exec_simpl.
    change (ascii_eqb " " nl) with false. change (ascii_eqb " " cr) with false.
    cbv iota. exec_simpl. unfold slice_from. cbn [String.length].
    rewrite length_append, length_spaces. cbn [String.length].
    destruct (Nat.ltb_spec (S (n + S (String.length rest))) (S n)) as [?|_]; [lia|].
    exec_simpl. cbn [sdrop]. by rewrite sdrop_spaces.
  - intros Hl rest'. unfold tokenize_step, scan.
    change (ascii_eqb " " nl || ascii_eqb " " cr) with false.
    change (ascii_eqb " " "#") with false.
    change (ascii_eqb " " " ") with true. cbv iota. rewrite Hl. exec_simpl.
    cbn [Nat.eqb]. exec_simpl.
    change (ascii_eqb " " nl) with false. change (ascii_eqb " " cr) with false.
    cbv iota. exec_simpl. unfold slice_from. cbn [String.length Nat.ltb Nat.leb].
    by destruct t.
Qed.

Lemma space_rule_witness :
  tokenize_step (advanced zeroTokenizer true 1) " " "   x"
  = Ret (Continue
           (advanced (emitted (advanced zeroTokenizer true 1) TokenIndent (intValue 2))
              false 4) "x")
  ∧ tokenize_step (advanced zeroTokenizer true 1) " " "  x"
    = Ret (Return (advanced zeroTokenizer true 1) (ErrorsNew "Invalid number of spaces"))
  ∧ tokenize_step zeroTokenizer " " "  x"
    = Ret (Continue (advanced zeroTokenizer false 1) "  x").
Proof.
  split; [|split].
  - exact (proj1 (space_rule (advanced zeroTokenizer true 1) 3 "x" EmptyString
                    ltac:(done)) eq_refl).
  - exact (proj1 (space_rule (advanced zeroTokenizer true 1) 2 "x" EmptyString
                    ltac:(done)) eq_refl).
  - exact (proj2 (space_rule zeroTokenizer 0 "x" EmptyString ltac:(done)) eq_refl "  x").
Defined.

(** X4: a comment.  When a line feed follows, the [Comment] token
    carries the text between [#] and the line feed, and the line feed
    is left for the next turn.  When the comment reaches the end of
    the input the slice [input[chop:nextNewLine]] is taken one byte
    past the input, and the call panics. *)
Theorem comment_rule (t : Tokenizer) (body : string) :
  index_nl body = None →
  (∀ rest,
     tokenize_step t "#" (body +:+ String nl rest)
     = Ret (Continue
              (advanced (emitted t TokenComment (stringValue body)) false
                 (S (String.length body)))
              (String nl rest)))
  ∧ tokenize_step t "#" body
    = Panic (PanicRuntime
               (SliceBoundsOutOfRange (S (String.length body) + 1)
                  (S (String.length body)))).
Proof.
  intros Hnl. split; [intros rest; by apply tokenize_step_comment|].
  unfold tokenize_step, scan.
  change (ascii_eqb "#" nl || ascii_eqb "#" cr) with false.
  change (ascii_eqb "#" "#") with true. cbv iota. cbn [sdrop].
  rewrite Hnl. unfold slice. cbn [String.length].
  destruct (Nat.ltb_spec (S (String.length body)) (S (String.length body) + 1))
    as [_|?]; [done|lia].
Qed.

Lemma comment_rule_witness :
  tokenize_step zeroTokenizer "#" (" note" +:+ String nl "a")
  = Ret (Continue (advanced (emitted zeroTokenizer TokenComment (stringValue " note"))
                     false 6) (String nl "a"))
  ∧ tokenize_step zeroTokenizer "#" " note"
    = Panic (PanicRuntime (SliceBoundsOutOfRange 7 6)).
Proof.
  destruct (comment_rule zeroTokenizer " note" eq_refl) as [H1 H2].
  split; [apply H1|apply H2].
Defined.

(** X5: line terminators other than two line feeds.  A line feed, or
    a carriage return with the line feed after it, gives one [NewLine]
    token and arms the indentation.  A carriage return that another
    byte follows gives a [NewLine] token as well but leaves the
    indentation unarmed; at the very end of the input it makes the
    assignment to [lastNewLine] read [input[1]] past the input, and the
    call panics. *)
Theorem line_break_rule (t : Tokenizer) (c : ascii) (rest : string) :
  c ≠ nl →
  tokenize_step t nl (String c rest)
  = Ret (Continue (after_line_break t true 1) (String c rest))
  ∧ tokenize_step t nl EmptyString
    = Ret (Continue (after_line_break t true 1) EmptyString)
  ∧ tokenize_step t cr (String nl rest)
    = Ret (Continue (after_line_break t true 2) rest)
  ∧ tokenize_step t cr (String c rest)
    = Ret (Continue (after_line_break t false 1) (String c rest))
  ∧ tokenize_step t cr EmptyString = Panic (PanicRuntime (IndexOutOfRange 1 1)).
Proof.
  intros Hc. unfold tokenize_step, scan, index_at, slice_from.
  change (ascii_eqb nl nl) with true. change (ascii_eqb cr nl) with false.
  change (ascii_eqb cr cr) with true. simpl.
  rewrite !(ascii_eqb_ne c nl Hc). simpl. by destruct t.
Qed.

Lemma line_break_rule_witness :
  tokenize_step zeroTokenizer cr "a"
  = Ret (Continue (after_line_break zeroTokenizer false 1) "a").
Proof.
  exact (proj1 (proj2 (proj2 (proj2
    (line_break_rule zeroTokenizer "a" EmptyString ltac:(done)))))).
Defined.

Lemma plain_char_spec (c : ascii) :
  plain_char c = true →
  ascii_eqb c dquote = false ∧ ascii_eqb c backslash = false
  ∧ (nat_of_ascii c <? 32)%nat = false ∧ (nat_of_ascii c <? 128)%nat = true.
Proof.
  unfold plain_char, in_range.
  intros [[[H1%Nat.leb_le H2%Nat.leb_le]%andb_true_iff H3%negb_true_iff]%andb_true_iff
            H4%negb_true_iff]%andb_true_iff.
  repeat split; [done|done|apply Nat.ltb_ge; lia|apply Nat.ltb_lt; lia].
Qed.

Lemma quote_scan_plain (s rest : string) (i : nat) (p1 p2 : ascii) :
  string_forall plain_char s = true → ascii_eqb p1 backslash = false →
  quote_scan (s +:+ String dquote rest) i p1 p2 = S (i + String.length s)
  ∧ quote_scan s i p1 p2 = (i + String.length s)%nat.
Proof.
  revert i p1 p2. induction s as [|c s IH]; intros i p1 p2 Hs Hp; simpl.
  - rewrite ?ascii_eqb_refl, ?Hp. simpl. split; f_equal; lia.
  - apply andb_true_iff in Hs as [Hc Hs].
    destruct (plain_char_spec c Hc) as (Hq & Hb & _).
    rewrite ?app_String. simpl. rewrite Hq.
    destruct (IH (S i) c p1 Hs Hb) as [H1 H2]. rewrite H1, H2. split; lia.
Qed.

Lemma unescape_body_plain (s : string) :
  string_forall plain_char s = true →
  unescape_body (s +:+ String dquote EmptyString) = Some s
  ∧ unescape_body s = None.
Proof.
  induction s as [|c s IH]; intros Hs; simpl.
  - by rewrite ?ascii_eqb_refl.
  - apply andb_true_iff in Hs as [Hc Hs].
    destruct (plain_char_spec c Hc) as (Hq & Hb & Hlow & _).
    rewrite ?app_String. simpl. rewrite Hq, Hb, Hlow.
    by destruct (IH Hs) as [-> ->].
Qed.

Lemma coerce_utf8_plain (s : string) :
  string_forall plain_char s = true → coerce_utf8 s = s.
Proof.
  unfold coerce_utf8. induction s as [|c s IH]; intros Hs; simpl; [done|].
  apply andb_true_iff in Hs as [Hc Hs].
  destruct (plain_char_spec c Hc) as (_ & _ & _ & ->). by rewrite IH.
Qed.

Lemma stake_all (s : string) : stake (String.length s) s = s.
Proof. induction s as [|c s IH]; simpl; congruence. Qed.

Lemma stake_closing (s rest : string) (q : ascii) :
  stake (S (String.length s)) (s +:+ String q rest) = s +:+ String q EmptyString
  ∧ sdrop (S (String.length s)) (s +:+ String q rest) = rest.
Proof.
  assert (s +:+ String q rest = (s +:+ String q EmptyString) +:+ rest) as ->.
  { induction s as [|c s IH]; [done|]. by rewrite !app_String, IH. }
  assert (S (String.length s) = String.length (s +:+ String q EmptyString)) as ->.
  { rewrite length_append. simpl. lia. }
  by rewrite stake_app, sdrop_app.
Qed.

(** X6: a quoted string of printable ASCII without quote and
    backslash.  With its closing quote it gives one [String] token that
    carries the text between the quotes, and both quotes are consumed;
    without a closing quote the scan runs to the end of the input, the
    JSON decoder rejects the text, and the call panics with [panic(1)]. *)
Theorem quoted_string_rule (t : Tokenizer) (s : string) :
  string_forall plain_char s = true →
  (∀ rest,
     tokenize_step t dquote (s +:+ String dquote rest)
     = Ret (Continue
              (advanced (emitted t TokenString (stringValue s)) false
                 (S (S (String.length s))))
              rest))
  ∧ tokenize_step t dquote s = Panic (PanicInt 1).
Proof.
  intros Hs. split.
  - intros rest. unfold tokenize_step, scan.
    change (ascii_eqb dquote nl || ascii_eqb dquote cr) with false.
    change (ascii_eqb dquote "#") with false.
    change (ascii_eqb dquote " ") with false.
    change (ascii_eqb dquote dquote) with true. cbv iota zeta.
    rewrite (proj1 (quote_scan_plain s rest 1 dquote dquote Hs eq_refl)).
    change (stake (S (1 + String.length s)) (String dquote (s +:+ String dquote rest)))
      with (String dquote (stake (S (String.length s)) (s +:+ String dquote rest))).
    rewrite (proj1 (stake_closing s rest dquote)). unfold json_unquote.
    change (ascii_eqb dquote dquote) with true. cbv iota.
    rewrite (proj1 (unescape_body_plain s Hs)). cbn [fmap option_fmap option_map].
    rewrite coerce_utf8_plain by done.
    change (buildToken t TokenString (VString s))
      with (Ret (emitted t TokenString (stringValue s))).
    exec_simpl. cbn [Nat.eqb]. exec_simpl.
    change (ascii_eqb dquote nl) with false. change (ascii_eqb dquote cr) with false.
    cbv iota. exec_simpl. unfold slice_from. cbn [String.length].
    rewrite !length_append. cbn [String.length].
    destruct (Nat.ltb_spec (S (String.length s + S (String.length rest)))
                (S (1 + String.length s))) as [?|_]; [lia|].
    exec_simpl.
    change (sdrop (S (1 + String.length s)) (String dquote (s +:+ String dquote rest)))
      with (sdrop (S (String.length s)) (s +:+ String dquote rest)).
    by rewrite (proj2 (stake_closing s rest dquote)).
  - unfold tokenize_step, scan.
    change (ascii_eqb dquote nl || ascii_eqb dquote cr) with false.
    change (ascii_eqb dquote "#") with false.
    change (ascii_eqb dquote " ") with false.
    change (ascii_eqb dquote dquote) with true. cbv iota zeta.
    rewrite (proj2 (quote_scan_plain s EmptyString 1 dquote dquote Hs eq_refl)).
    change (1 + String.length s)%nat with (String.length (String dquote s)).
    rewrite stake_all. unfold json_unquote.
    change (ascii_eqb dquote dquote) with true. cbv iota.
    by rewrite (proj2 (unescape_body_plain s Hs)).
Qed.

Lemma quoted_string_rule_witness :
  tokenize_step zeroTokenizer dquote ("^1.2 <3" +:+ String dquote ",")
  = Ret (Continue (advanced (emitted zeroTokenizer TokenString (stringValue "^1.2 <3"))
                     false 9) ",")
  ∧ tokenize_step zeroTokenizer dquote "^1.2 <3" = Panic (PanicInt 1).
Proof.
  destruct (quoted_string_rule zeroTokenizer "^1.2 <3" eq_refl) as [H1 H2].
  split; [apply H1|apply H2].
Defined.

Lemma leading_digits_app (ds rest : string) :
  all_digits ds = true → starts_with_digit rest = false →
  leading_digits (ds +:+ rest) = ds.
Proof.
  intros Hd Hr. induction ds as [|c ds IH]; simpl.
  - destruct rest as [|r rest]; [done|]. simpl in *. by rewrite Hr.
  - simpl in Hd. apply andb_true_iff in Hd as [Hc Hd].
    rewrite ?app_String. simpl. by rewrite Hc, IH.
Qed.

(** X7: a number.  At a digit the longest run of digits is taken, and
    the [Number] token carries its decimal value, or the largest [int]
    when the value does not fit; the value is never negative. *)
Theorem number_rule (t : Tokenizer) (d : ascii) (ds rest : string) :
  all_digits (String d ds) = true → starts_with_digit rest = false →
  tokenize_step t d (ds +:+ rest)
  = Ret (Continue
           (advanced (emitted t TokenNumber (intValue (Atoi (String d ds)))) false
              (S (String.length ds)))
           rest)
  ∧ 0 ≤ Atoi (String d ds) ≤ maxInt
  ∧ (decimal_value 0 (String d ds) ≤ maxInt →
     Atoi (String d ds) = decimal_value 0 (String d ds)).
Proof.
  intros Hd Hr. split.
  - pose proof Hd as Hd'. cbn [all_digits] in Hd'.
    apply andb_true_iff in Hd' as [Hc _].
    assert (earlier : ascii_eqb d nl || ascii_eqb d cr = false
                      ∧ ascii_eqb d "#" = false ∧ ascii_eqb d " " = false
                      ∧ ascii_eqb d dquote = false).
    { unfold is_digit in Hc. apply andb_true_iff in Hc as [H1%Nat.leb_le H2%Nat.leb_le].
      repeat split; [apply orb_false_iff; split|..];
        apply ascii_eqb_ne; intros ->; vm_compute in H1; lia. }
    destruct earlier as (E1 & E2 & E3 & E4).
    unfold tokenize_step, scan. rewrite E1, E2, E3, E4, Hc. cbv zeta.
    change (String d (ds +:+ rest)) with (String d ds +:+ rest).
    rewrite leading_digits_app by done.
    change (buildToken t TokenNumber (VInt (Atoi (String d ds))))
      with (Ret (emitted t TokenNumber (intValue (Atoi (String d ds))))).
    exec_simpl. cbn [String.length Nat.eqb]. exec_simpl.
    apply orb_false_iff in E1 as [-> ->]. exec_simpl.
    unfold slice_from. rewrite length_append. cbn [String.length].
    destruct (Nat.ltb_spec (S (String.length ds) + String.length rest)
                (S (String.length ds))) as [?|_]; [lia|].
    exec_simpl. change (S (String.length ds)) with (String.length (String d ds)).
    by rewrite sdrop_app.
  - pose proof (decimal_value_nonneg (String d ds) 0 ltac:(done)).
    unfold Atoi, maxInt in *. lia.
Qed.

Lemma number_rule_witness :
  tokenize_step zeroTokenizer "4" "2.x"
  = Ret (Continue (advanced (emitted zeroTokenizer TokenNumber (intValue 42)) false 2)
           ".x")
  ∧ Atoi "99999999999999999999" = 9223372036854775807.
Proof.
  split; [|reflexivity].
  exact (proj1 (number_rule zeroTokenizer "4" "2" ".x" eq_refl eq_refl)).
Defined.
